(** * uio_htif: the address-translating, bounds-checked access layer

    A shallow embedding of [uio_htif_t] (src/uio_mmio_src/uio_htif.cc and
    uio_htif.h): the life cycle of the UIO mapping, the translation of a
    Rocket address to an offset in the mapped window, the bounds check, and
    the chunk operations built on them.

    Conventions.
    - [addr_t] (fesvr's [reg_t], a [uint64_t]) and [size_t] (printed with
      [%lx] by the source) are 64-bit unsigned integers: values are [Z] in
      [0, 2^64) and every sum or difference of the source is reduced modulo
      [2^64] where the source computes it.
    - A method of the class is a computation in the monad [M]: it takes the
      state (the object's fields and the process environment), and returns
      either a value or a thrown exception, together with the new state.
    - What the source sends to [stderr], the system calls it makes, the
      copies to and from the window and the fences are appended, in order,
      to the [trace] of the environment.
    - A pointer is an address, a [Z], and [memory] gives a byte to every
      address.  The bytes the object may touch are those of its window,
      from [uio_base] to [uio_base + uio_size]: a [memcpy] or [memset] that
      leaves the window has no defined behaviour (the process is killed by
      a signal, possibly after part of the copy), which is the outcome
      [Fault].  Nothing is said of the state after a fault.  The sum
      [(uint8_t * ) uio_base + uio_offset] is not reduced: inside the
      window it does not wrap. *)

From Stdlib Require Import ZArith List Bool Lia String.
From Stdlib Require Import Strings.Byte Strings.Ascii.
Import ListNotations.
Local Open Scope Z_scope.

(** ** 64-bit unsigned arithmetic *)

Module U64.

Definition modulus : Z := 2 ^ 64.

Definition max : Z := modulus - 1.

Definition wrap (z : Z) : Z := z mod modulus.

Definition add (a b : Z) : Z := wrap (a + b).

Definition sub (a b : Z) : Z := wrap (a - b).

Definition in_range (z : Z) : Prop := 0 <= z < modulus.

End U64.

(** ** Layout constants (uio_htif.h) *)

Definition UIO_DRAM_OFFSET : Z := 0x00000000.
Definition UIO_BOOTROM_OFFSET : Z := 0x3fffc000.
Definition UIO_CLINT_OFFSET : Z := 0x3fffe000.

Definition ROCKET_BOOTROM_BASE : Z := 0x1000.
Definition ROCKET_CLINT_BASE : Z := 0x2000000.
Definition ROCKET_DRAM_BASE : Z := 0x80000000.

(** [nullptr] and [MAP_FAILED] (which is [(void * ) -1]) as addresses. *)
Definition nullptr : Z := 0.
Definition MAP_FAILED : Z := U64.max.

(** ** Events, exceptions and the state *)

(** The lines the source prints on [stderr], without their formatting. *)
Inductive message : Type :=
| MsgDefaultUioSize (total_size : Z)
| MsgDefaultDramSize (dram : Z)
| MsgOpenError (uio_device : string)
| MsgMapError (uio_device : string)
| MsgMapped (uio_device : string) (base size : Z)
| MsgMemoryMapHeader
| MsgMemoryMapDram (dram : Z)
| MsgMemoryMapBootRom
| MsgMemoryMapClint
| MsgUnmapped (rocket_addr : Z)
| MsgReadOutOfBounds (taddr len : Z)
| MsgWriteOutOfBounds (taddr len : Z)
| MsgClearOutOfBounds (taddr len : Z)
| MsgTriggerMSIP (msip_addr uio_offset : Z).

Inductive event : Type :=
| EvStderr (m : message)
| EvOpen (uio_device : string) (ret : Z)
| EvMmap (size fd ret : Z)
| EvMunmap (base size : Z)
| EvClose (fd : Z)
| EvCopyFromWindow (p len : Z)
| EvCopyToWindow (p len : Z) (src : list byte)
| EvFillWindow (p : Z) (c : byte) (len : Z)
| EvFence.

Inductive exn : Type :=
| invalid_argument (what : string)
| runtime_error (what : string).

(** The four fields of [uio_htif_t], then the environment of the process:
    the descriptors that are open, the mappings that are live, the bytes of
    the address space, and the trace. *)
Record state : Type := mkState {
  uio_base : Z;
  uio_size : Z;
  uio_fd : Z;
  dram_size : Z;
  open_fds : list Z;
  mappings : list (Z * Z);
  memory : Z -> byte;
  trace : list event
}.

Definition set_uio_base (v : Z) (s : state) : state :=
  mkState v (uio_size s) (uio_fd s) (dram_size s)
          (open_fds s) (mappings s) (memory s) (trace s).

Definition set_uio_size (v : Z) (s : state) : state :=
  mkState (uio_base s) v (uio_fd s) (dram_size s)
          (open_fds s) (mappings s) (memory s) (trace s).

Definition set_uio_fd (v : Z) (s : state) : state :=
  mkState (uio_base s) (uio_size s) v (dram_size s)
          (open_fds s) (mappings s) (memory s) (trace s).

Definition set_dram_size (v : Z) (s : state) : state :=
  mkState (uio_base s) (uio_size s) (uio_fd s) v
          (open_fds s) (mappings s) (memory s) (trace s).

Definition set_open_fds (v : list Z) (s : state) : state :=
  mkState (uio_base s) (uio_size s) (uio_fd s) (dram_size s)
          v (mappings s) (memory s) (trace s).

Definition set_mappings (v : list (Z * Z)) (s : state) : state :=
  mkState (uio_base s) (uio_size s) (uio_fd s) (dram_size s)
          (open_fds s) v (memory s) (trace s).

Definition set_memory (v : Z -> byte) (s : state) : state :=
  mkState (uio_base s) (uio_size s) (uio_fd s) (dram_size s)
          (open_fds s) (mappings s) v (trace s).

Definition append_event (e : event) (s : state) : state :=
  mkState (uio_base s) (uio_size s) (uio_fd s) (dram_size s)
          (open_fds s) (mappings s) (memory s) (trace s ++ [e]).

(** The sizes held by the object are [size_t] values. *)
Definition sizes_in_range (s : state) : Prop :=
  U64.in_range (uio_size s) /\ U64.in_range (dram_size s).

(** ** The monad of methods: state and exceptions *)

(** A method returns a value, throws an exception, or does neither: a copy
    or a fill that leaves the mapped window has no defined behaviour, and
    the run ends there. *)
Inductive result (A : Type) : Type :=
| Ok (a : A)
| Throw (e : exn)
| Fault.

Arguments Ok {A} a.
Arguments Throw {A} e.
Arguments Fault {A}.

Definition M (A : Type) : Type := state -> result A * state.

Definition ret {A : Type} (a : A) : M A := fun s => (Ok a, s).

Definition bind {A B : Type} (m : M A) (k : A -> M B) : M B :=
  fun s =>
    match m s with
    | (Ok a, s') => k a s'
    | (Throw e, s') => (Throw e, s')
    | (Fault, s') => (Fault, s')
    end.

Definition throw {A : Type} (e : exn) : M A := fun s => (Throw e, s).

Definition fault {A : Type} : M A := fun s => (Fault, s).

Definition gets {A : Type} (f : state -> A) : M A := fun s => (Ok (f s), s).

Definition modify (f : state -> state) : M unit := fun s => (Ok tt, f s).

Definition emit (e : event) : M unit := modify (append_event e).

Definition fprintf_stderr (m : message) : M unit := emit (EvStderr m).

Declare Scope method_scope.
Delimit Scope method_scope with method.
Notation "x <- m ;; k" := (bind m (fun x => k))
  (at level 61, m at next level, right associativity) : method_scope.
Notation "m ;; k" := (bind m (fun _ => k))
  (at level 61, right associativity) : method_scope.
Local Open Scope method_scope.

(** ** Address translation and validation *)

(** [uio_htif_t::rocket_addr_to_uio_offset] (uio_htif.cc, 113-132). *)
Definition rocket_addr_to_uio_offset (rocket_addr : Z) : M Z :=
  if (ROCKET_BOOTROM_BASE <=? rocket_addr)
     && (rocket_addr <? ROCKET_BOOTROM_BASE + 0x2000)
  then ret (U64.add UIO_BOOTROM_OFFSET (U64.sub rocket_addr ROCKET_BOOTROM_BASE))
  else if (ROCKET_CLINT_BASE <=? rocket_addr)
          && (rocket_addr <? ROCKET_CLINT_BASE + 0x10000)
  then ret (U64.add UIO_CLINT_OFFSET (U64.sub rocket_addr ROCKET_CLINT_BASE))
  else if ROCKET_DRAM_BASE <=? rocket_addr
  then ret (U64.add UIO_DRAM_OFFSET (U64.sub rocket_addr ROCKET_DRAM_BASE))
  else
    fprintf_stderr (MsgUnmapped rocket_addr) ;;
    ret 0.

(** [uio_htif_t::is_valid_address] (uio_htif.cc, 134-160). *)
Definition is_valid_address (rocket_addr len : Z) : M bool :=
  uio_offset <- rocket_addr_to_uio_offset rocket_addr ;;
  size <- gets uio_size ;;
  if U64.add uio_offset len >? size then ret false
  else if (ROCKET_BOOTROM_BASE <=? rocket_addr)
          && (rocket_addr <? ROCKET_BOOTROM_BASE + 0x2000)
  then ret (U64.add rocket_addr len <=? ROCKET_BOOTROM_BASE + 0x2000)
  else if (ROCKET_CLINT_BASE <=? rocket_addr)
          && (rocket_addr <? ROCKET_CLINT_BASE + 0x10000)
  then ret (U64.add rocket_addr len <=? ROCKET_CLINT_BASE + 0x10000)
  else if ROCKET_DRAM_BASE <=? rocket_addr
  then
    dram <- gets dram_size ;;
    ret (U64.add (U64.sub rocket_addr ROCKET_DRAM_BASE) len <=? dram)
  else ret false.

(** ** The process environment: system calls and the bytes of the window *)

(** [open(2)], [close(2)], [mmap(2)] and [munmap(2)].  What the kernel
    answers is not decided by the program: the answer of [open] and of
    [mmap] is an argument of the model ([res]). *)
Definition sys_open (path : string) (res : Z) : M Z :=
  emit (EvOpen path res) ;;
  (if 0 <=? res
   then modify (fun s => set_open_fds (res :: open_fds s) s)
   else ret tt) ;;
  ret res.

Definition sys_close (fd : Z) : M unit :=
  emit (EvClose fd) ;;
  modify (fun s => set_open_fds (remove Z.eq_dec fd (open_fds s)) s).

Definition sys_mmap (size fd res : Z) : M Z :=
  emit (EvMmap size fd res) ;;
  (if res =? MAP_FAILED
   then ret tt
   else modify (fun s => set_mappings ((res, size) :: mappings s) s)) ;;
  ret res.

Definition sys_munmap (base size : Z) : M unit :=
  emit (EvMunmap base size) ;;
  modify (fun s =>
    set_mappings (filter (fun m => negb (fst m =? base)) (mappings s)) s).

(** [len] bytes starting at address [p]. *)
Definition load_bytes (m : Z -> byte) (p len : Z) : list byte :=
  map (fun i => m (p + Z.of_nat i)) (seq 0 (Z.to_nat len)).

(** The address space after [len] bytes of [src] were copied to [p]. *)
Definition store_bytes (m : Z -> byte) (p len : Z) (src : list byte)
  : Z -> byte :=
  fun q =>
    if (p <=? q) && (q <? p + len)
    then nth (Z.to_nat (q - p)) src x00
    else m q.

(** The address space after [len] bytes at [p] were set to [c]. *)
Definition fill_bytes (m : Z -> byte) (p : Z) (c : byte) (len : Z)
  : Z -> byte :=
  fun q => if (p <=? q) && (q <? p + len) then c else m q.

(** The [len] bytes at [p] all belong to the window the object holds,
    [uio_size] bytes at [uio_base], which [map_uio_device] sets to the
    mapping it made.  No byte is touched when [len] is 0. *)
Definition access_in_window (s : state) (p len : Z) : bool :=
  (len =? 0)
  || ((uio_base s <=? p) && (p + len <=? uio_base s + uio_size s)).

(** [memcpy(dst, p, len)] out of the window; the destination buffer is the
    value returned.  It faults when it leaves the window. *)
Definition memcpy_from (p len : Z) : M (list byte) :=
  emit (EvCopyFromWindow p len) ;;
  inside <- gets (fun s => access_in_window s p len) ;;
  if inside then gets (fun s => load_bytes (memory s) p len) else fault.

(** [memcpy(p, src, len)] into the window.  It faults when it leaves the
    window. *)
Definition memcpy_to (p : Z) (src : list byte) (len : Z) : M unit :=
  emit (EvCopyToWindow p len src) ;;
  inside <- gets (fun s => access_in_window s p len) ;;
  if inside
  then modify (fun s => set_memory (store_bytes (memory s) p len src) s)
  else fault.

(** [memset(p, c, len)].  It faults when it leaves the window. *)
Definition memset (p : Z) (c : byte) (len : Z) : M unit :=
  emit (EvFillWindow p c len) ;;
  inside <- gets (fun s => access_in_window s p len) ;;
  if inside
  then modify (fun s => set_memory (fill_bytes (memory s) p c len) s)
  else fault.

(** [__sync_synchronize()]. *)
Definition sync_synchronize : M unit := emit EvFence.

(** ** Life cycle of the mapping *)

(** [uio_htif_t::map_uio_device] (uio_htif.cc, 76-99). *)
Definition map_uio_device (uio_device : string) (size : Z)
                          (open_res mmap_res : Z) : M bool :=
  fd <- sys_open uio_device open_res ;;
  modify (set_uio_fd fd) ;;
  fd <- gets uio_fd ;;
  if fd <? 0 then
    fprintf_stderr (MsgOpenError uio_device) ;;
    ret false
  else
    base <- sys_mmap size fd mmap_res ;;
    modify (set_uio_base base) ;;
    base <- gets uio_base ;;
    if base =? MAP_FAILED then
      fprintf_stderr (MsgMapError uio_device) ;;
      fd <- gets uio_fd ;;
      sys_close fd ;;
      modify (set_uio_fd (-1)) ;;
      ret false
    else
      modify (set_uio_size size) ;;
      base <- gets uio_base ;;
      size' <- gets uio_size ;;
      fprintf_stderr (MsgMapped uio_device base size') ;;
      ret true.

(** [uio_htif_t::unmap_uio] (uio_htif.cc, 101-111). *)
Definition unmap_uio : M unit :=
  base <- gets uio_base ;;
  (if negb (base =? nullptr) && negb (base =? MAP_FAILED) then
     size <- gets uio_size ;;
     sys_munmap base size ;;
     modify (set_uio_base nullptr)
   else ret tt) ;;
  fd <- gets uio_fd ;;
  if 0 <=? fd then
    sys_close fd ;;
    modify (set_uio_fd (-1))
  else ret tt.

(** ** The chunk operations *)

(** [uio_htif_t::read_chunk] (uio_htif.cc, 162-173). *)
Definition read_chunk (taddr len : Z) : M (list byte) :=
  valid <- is_valid_address taddr len ;;
  (if negb valid then
     fprintf_stderr (MsgReadOutOfBounds taddr len) ;;
     throw (runtime_error "Read address out of bounds")
   else ret tt) ;;
  uio_offset <- rocket_addr_to_uio_offset taddr ;;
  base <- gets uio_base ;;
  memcpy_from (base + uio_offset) len.

(** [uio_htif_t::write_chunk] (uio_htif.cc, 175-189). *)
Definition write_chunk (taddr len : Z) (src : list byte) : M unit :=
  valid <- is_valid_address taddr len ;;
  (if negb valid then
     fprintf_stderr (MsgWriteOutOfBounds taddr len) ;;
     throw (runtime_error "Write address out of bounds")
   else ret tt) ;;
  uio_offset <- rocket_addr_to_uio_offset taddr ;;
  base <- gets uio_base ;;
  memcpy_to (base + uio_offset) src len ;;
  sync_synchronize.

(** [uio_htif_t::clear_chunk] (uio_htif.cc, 191-205). *)
Definition clear_chunk (taddr len : Z) : M unit :=
  valid <- is_valid_address taddr len ;;
  (if negb valid then
     fprintf_stderr (MsgClearOutOfBounds taddr len) ;;
     throw (runtime_error "Clear address out of bounds")
   else ret tt) ;;
  uio_offset <- rocket_addr_to_uio_offset taddr ;;
  base <- gets uio_base ;;
  memset (base + uio_offset) x00 len ;;
  sync_synchronize.

(** The in-memory bytes of a [uint32_t].  The order of the bytes is the
    host's; both orders are modelled. *)
Inductive byte_order : Type := LittleEndian | BigEndian.

Definition byte_of_Z (z : Z) : byte :=
  match Byte.of_N (Z.to_N (z mod 256)) with
  | Some b => b
  | None => x00
  end.

Definition Z_of_byte (b : byte) : Z := Z.of_N (Byte.to_N b).

Definition bytes_of_uint32 (bo : byte_order) (v : Z) : list byte :=
  let le := [byte_of_Z v; byte_of_Z (Z.shiftr v 8);
             byte_of_Z (Z.shiftr v 16); byte_of_Z (Z.shiftr v 24)] in
  match bo with
  | LittleEndian => le
  | BigEndian => rev le
  end.

Definition uint32_of_bytes (bo : byte_order) (bs : list byte) : Z :=
  let le := match bo with LittleEndian => bs | BigEndian => rev bs end in
  match le with
  | [b0; b1; b2; b3] =>
      Z_of_byte b0 + Z.shiftl (Z_of_byte b1) 8
      + Z.shiftl (Z_of_byte b2) 16 + Z.shiftl (Z_of_byte b3) 24
  | _ => 0
  end.

(** [uio_htif_t::reset] (uio_htif.cc, 207-216); [sizeof(uint32_t)] is 4. *)
Definition reset (bo : byte_order) : M unit :=
  let one := 1 in
  let msip_addr := ROCKET_CLINT_BASE in
  uio_offset <- rocket_addr_to_uio_offset msip_addr ;;
  fprintf_stderr (MsgTriggerMSIP msip_addr uio_offset) ;;
  write_chunk msip_addr 4 (bytes_of_uint32 bo one).

(** ** Construction *)

(** What the loop over [argv] of [parse_uio_args] leaves behind: the device
    named by [+uio=], the value of [+uio_size=] (0 when absent) and the
    value of [+dram_size=] when present. *)
Record plusargs : Type := mkPlusargs {
  arg_uio : string;
  arg_uio_size : Z;
  arg_dram_size : option Z
}.

(** [uio_htif_t::parse_uio_args] (uio_htif.cc, 26-74), after its loop. *)
Definition parse_uio_args (args : plusargs) (open_res mmap_res : Z)
  : M unit :=
  let uio_device := arg_uio args in
  (match arg_dram_size args with
   | Some d => modify (set_dram_size d)
   | None => ret tt
   end) ;;
  total_size <-
    (if arg_uio_size args =? 0 then
       fprintf_stderr (MsgDefaultUioSize 0x40000000) ;;
       ret 0x40000000
     else ret (arg_uio_size args)) ;;
  dram <- gets dram_size ;;
  (if dram =? 0 then
     modify (set_dram_size UIO_BOOTROM_OFFSET) ;;
     fprintf_stderr (MsgDefaultDramSize UIO_BOOTROM_OFFSET)
   else ret tt) ;;
  if (uio_device =? "")%string then
    throw (invalid_argument "Must specify +uio=/dev/uioX")
  else
    mapped <- map_uio_device uio_device total_size open_res mmap_res ;;
    if negb mapped then
      throw (runtime_error "Failed to map UIO device")
    else
      dram <- gets dram_size ;;
      fprintf_stderr MsgMemoryMapHeader ;;
      fprintf_stderr (MsgMemoryMapDram dram) ;;
      fprintf_stderr MsgMemoryMapBootRom ;;
      fprintf_stderr MsgMemoryMapClint.

(** The constructor of the class itself (uio_htif.cc, 13-19), which runs
    once the constructor of the base class, [htif_t(argc, argv)], has
    returned: the member initialisers, then [parse_uio_args].  The base
    class belongs to fesvr; the constructor as a whole, base class first,
    is [uio_htif_t_ctor] below. *)
Definition uio_htif_t_new (args : plusargs) (open_res mmap_res : Z)
  : M unit :=
  modify (set_uio_base nullptr) ;;
  modify (set_uio_size 0) ;;
  modify (set_uio_fd (-1)) ;;
  modify (set_dram_size 0) ;;
  parse_uio_args args open_res mmap_res.

(** A process that has opened and mapped nothing yet. *)
Definition fresh_process : state :=
  mkState 0 0 0 0 [] [] (fun _ => x00) [].

(** The state [uio_htif_t_new] leaves when it returns, if any, in a
    process whose base-class constructor left nothing behind. *)
Definition constructed (args : plusargs) (open_res mmap_res : Z)
  : option state :=
  match uio_htif_t_new args open_res mmap_res fresh_process with
  | (Ok _, s) => Some s
  | (Throw _, _) => None
  | (Fault, _) => None
  end.

(** ** Vocabulary of the specification *)

(** The three regions of the Rocket address space. *)
Inductive region : Type := BootRom | Clint | Dram.

(** The branch of [rocket_addr_to_uio_offset] an address takes: the region
    it translates to, or none. *)
Definition region_of (rocket_addr : Z) : option region :=
  if (ROCKET_BOOTROM_BASE <=? rocket_addr)
     && (rocket_addr <? ROCKET_BOOTROM_BASE + 0x2000)
  then Some BootRom
  else if (ROCKET_CLINT_BASE <=? rocket_addr)
          && (rocket_addr <? ROCKET_CLINT_BASE + 0x10000)
  then Some Clint
  else if ROCKET_DRAM_BASE <=? rocket_addr
  then Some Dram
  else None.

Definition region_base (r : region) : Z :=
  match r with
  | BootRom => ROCKET_BOOTROM_BASE
  | Clint => ROCKET_CLINT_BASE
  | Dram => ROCKET_DRAM_BASE
  end.

Definition region_window_offset (r : region) : Z :=
  match r with
  | BootRom => UIO_BOOTROM_OFFSET
  | Clint => UIO_CLINT_OFFSET
  | Dram => UIO_DRAM_OFFSET
  end.

(** The upper bound of a region: the first Rocket address after it. *)
Definition region_end (s : state) (r : region) : Z :=
  match r with
  | BootRom => ROCKET_BOOTROM_BASE + 0x2000
  | Clint => ROCKET_CLINT_BASE + 0x10000
  | Dram => ROCKET_DRAM_BASE + dram_size s
  end.

(** An address lies inside a region: half-open interval. *)
Definition in_region (s : state) (r : region) (a : Z) : Prop :=
  region_base r <= a < region_end s r.

(** The value and the final state of a run. *)
Definition value_of {A : Type} (r : result A * state) : result A := fst r.
Definition state_of {A : Type} (r : result A * state) : state := snd r.

(** The events a run added to the trace. *)
Definition added_events (before after : state) (evs : list event) : Prop :=
  trace after = trace before ++ evs.

(** Two states that differ at most by their trace. *)
Definition same_but_trace (s s' : state) : Prop :=
  uio_base s' = uio_base s /\ uio_size s' = uio_size s /\
  uio_fd s' = uio_fd s /\ dram_size s' = dram_size s /\
  open_fds s' = open_fds s /\ mappings s' = mappings s /\
  memory s' = memory s.

(** The offset [rocket_addr_to_uio_offset] returns. *)
Definition uio_offset_of (rocket_addr : Z) : Z :=
  match region_of rocket_addr with
  | Some r => U64.add (region_window_offset r)
                      (U64.sub rocket_addr (region_base r))
  | None => 0
  end.

(** The state [rocket_addr_to_uio_offset] leaves: a warning is printed for
    an address of no region. *)
Definition warned (rocket_addr : Z) (s : state) : state :=
  match region_of rocket_addr with
  | Some _ => s
  | None => append_event (EvStderr (MsgUnmapped rocket_addr)) s
  end.

(** The answer of [is_valid_address]. *)
Definition valid_at (s : state) (rocket_addr len : Z) : bool :=
  match is_valid_address rocket_addr len s with
  | (Ok b, _) => b
  | (Throw _, _) => false
  | (Fault, _) => false
  end.

(** The default configuration: a window of 1 GiB, main memory up to the
    boot ROM, the window mapped at [base] through descriptor [fd]. *)
Definition default_args : plusargs := mkPlusargs "/dev/uio0" 0 None.

Definition default_state : state :=
  match constructed default_args 3 0x7f0000000000 with
  | Some s => s
  | None => fresh_process
  end.

(** The unmapped-address warning for [a] is what a run printed. *)
Definition warning_recorded (before after : state) (a : Z) : Prop :=
  added_events before after [EvStderr (MsgUnmapped a)].

(** The two tests of [unmap_uio]. *)
Definition mapping_live (s : state) : bool :=
  negb (uio_base s =? nullptr) && negb (uio_base s =? MAP_FAILED).

Definition handle_open (s : state) : bool := 0 <=? uio_fd s.

(** A run that printed on [stderr] and did nothing else. *)
Definition only_printed (before after : state) : Prop :=
  same_but_trace before after
  /\ exists evs, added_events before after evs
                 /\ Forall (fun e => exists m, e = EvStderr m) evs.

(** The effect of [reset] the specification asks for: it returns, the one
    copy of the 4-byte value 1 to offset 0 of the interrupt-control block
    and the one fence that follows are all it did besides printing, and
    the 4 bytes read back are the value 1. *)
Definition reset_triggers_start (bo : byte_order) (s : state) : Prop :=
  exists s',
    reset bo s = (Ok tt, s')
    /\ added_events s s'
         [EvStderr (MsgTriggerMSIP ROCKET_CLINT_BASE UIO_CLINT_OFFSET);
          EvCopyToWindow (uio_base s + UIO_CLINT_OFFSET) 4
                         (bytes_of_uint32 bo 1);
          EvFence]
    /\ exists bs s'',
         read_chunk ROCKET_CLINT_BASE 4 s' = (Ok bs, s'')
         /\ uint32_of_bytes bo bs = 1.

(** A window of 4 KiB: the instance built from [+uio_size=0x1000]. *)
Definition small_window_state : state :=
  match constructed (mkPlusargs "/dev/uio0" 0x1000 None) 3 0x7f0000000000 with
  | Some s => s
  | None => fresh_process
  end.

(** ** The rest of the class and the program around it *)

(** [chunk_align] and [chunk_max_size] (uio_htif.h, 37-38). *)
Definition chunk_align : Z := 8.
Definition chunk_max_size : Z := 1024 * 1024.

(** The destructor of the class (uio_htif.cc, 21-24); the destructor of the
    base class, of fesvr, starts from the state it leaves. *)
Definition uio_htif_t_delete : M unit := unmap_uio.

(** [arg.substr(n)]: what follows the first [n] characters. *)
Definition substr_from (n : nat) (arg : string) : string :=
  substring n (String.length arg - n) arg.

Section Argv.

(** [strtoull(str, 0, 0)] of the C library. *)
Variable strtoull : string -> Z.

(** One turn of the loop of [parse_uio_args] (uio_htif.cc, 31-46);
    [arg.find(p) == 0] says that [p] is a prefix of [arg]. *)
Definition scan_arg (acc : plusargs) (arg : string) : plusargs :=
  if prefix "+uio=" arg then
    mkPlusargs (substr_from 5 arg) (arg_uio_size acc) (arg_dram_size acc)
  else if prefix "+uio_size=" arg then
    mkPlusargs (arg_uio acc) (strtoull (substr_from 10 arg))
               (arg_dram_size acc)
  else if prefix "+dram_size=" arg then
    mkPlusargs (arg_uio acc) (arg_uio_size acc)
               (Some (strtoull (substr_from 11 arg)))
  else acc.

(** The loop, from [argv[1]] on. *)
Definition scan_argv (argv : list string) : plusargs :=
  fold_left scan_arg (tl argv) (mkPlusargs "" 0 None).

(** The constructor, from [argv]. *)
Definition uio_htif_t_of_argv (argv : list string) (open_res mmap_res : Z)
  : M unit :=
  uio_htif_t_new (scan_argv argv) open_res mmap_res.

(** *** [main] (uio_mmio_main.cc, 41-98) *)

(** [argv[i][0] == '+']. *)
Definition is_plusarg (arg : string) : bool :=
  match arg with
  | String c _ => Ascii.eqb c "+"%char
  | EmptyString => false
  end.

(** The arguments handed to the constructor (uio_mmio_main.cc, 64-74). *)
Definition permissive_args (argv : list string) : list string :=
  flat_map (fun arg =>
              if is_plusarg arg
              then ["+permissive"; arg; "+permissive-off"]%string
              else [arg])
           argv.

Definition is_help_flag (arg : string) : bool :=
  ((arg =? "-h") || (arg =? "--help") || (arg =? "-help"))%string.

(** What [main] itself prints. *)
Inductive console_line : Type :=
| PrintUsage (prog_name : string)
| LogInitializing
| LogInitialized
| LogStarting
| LogExited (exit_code : Z)
| LogError (what : string).

Definition what_of (e : exn) : string :=
  match e with
  | invalid_argument w => w
  | runtime_error w => w
  end.

(** The constructor of the base class and [htif_t::run] belong to fesvr:
    any computation, which may return, throw or fault. *)
Variable htif_t_new : list string -> M unit.
Variable run : M Z.

(** The constructor as a whole (uio_htif.cc, 11-19): the base class
    first. *)
Definition uio_htif_t_ctor (argv : list string) (open_res mmap_res : Z)
  : M unit :=
  htif_t_new argv ;;
  uio_htif_t_of_argv argv open_res mmap_res.

(** [main]: the exit code it returns ([None] when the process was killed
    before [main] returned), the lines it printed, and the final state.
    The handlers of [SIGINT] and [SIGTERM] only set a flag nothing reads.
    An object whose constructor threw is not destroyed; the object
    constructed is destroyed when the [try] block is left, by [return] or
    by an exception of [run], and the final state is the one
    [uio_htif_t_delete] leaves. *)
Definition main (argv : list string) (open_res mmap_res : Z) (s : state)
  : option Z * list console_line * state :=
  if (List.length argv <? 2)%nat then
    (Some 1, [PrintUsage (hd ""%string argv)], s)
  else if existsb is_help_flag (tl argv) then
    (Some 0, [PrintUsage (hd ""%string argv)], s)
  else
    let args := permissive_args argv in
    match uio_htif_t_ctor args open_res mmap_res s with
    | (Throw e, s1) => (Some 1, [LogInitializing; LogError (what_of e)], s1)
    | (Fault, s1) => (None, [LogInitializing], s1)
    | (Ok _, s1) =>
        match run s1 with
        | (Ok exit_code, s2) =>
            (Some exit_code,
             [LogInitializing; LogInitialized; LogStarting;
              LogExited exit_code],
             state_of (uio_htif_t_delete s2))
        | (Throw e, s2) =>
            (Some 1,
             [LogInitializing; LogInitialized; LogStarting;
              LogError (what_of e)],
             state_of (uio_htif_t_delete s2))
        | (Fault, s2) =>
            (None, [LogInitializing; LogInitialized; LogStarting], s2)
        end
    end.

End Argv.

(** ** More vocabulary *)

(** The three conditions of a valid access, in exact arithmetic. *)
Definition fits_exactly (s : state) (a len : Z) : Prop :=
  exists r,
    region_of a = Some r
    /\ region_window_offset r + (a - region_base r) + len <= uio_size s
    /\ a + len <= region_end s r.

(** The addresses of the mapped window. *)
Definition in_window (s : state) (q : Z) : Prop :=
  uio_base s <= q < uio_base s + uio_size s.

(** The bytes an access of [len] bytes at Rocket address [a] touches. *)
Definition touched (s : state) (a len : Z) (q : Z) : Prop :=
  uio_base s + uio_offset_of a <= q < uio_base s + uio_offset_of a + len.

(** Every event of a list is a line on [stderr]. *)
Definition all_stderr (evs : list event) : Prop :=
  Forall (fun e => exists m, e = EvStderr m) evs.

(** The object and what it holds of the system are the same in two
    states: the four fields, the open descriptors and the live mappings. *)
Definition same_resources (s s' : state) : Prop :=
  uio_base s' = uio_base s /\ uio_size s' = uio_size s /\
  uio_fd s' = uio_fd s /\ dram_size s' = dram_size s /\
  open_fds s' = open_fds s /\ mappings s' = mappings s.

(** An instance built with [+dram_size=0x40000000]. *)
Definition large_dram_state : state :=
  match constructed (mkPlusargs "/dev/uio0" 0 (Some 0x40000000))
                    3 0x7f0000000000 with
  | Some s => s
  | None => fresh_process
  end.

(** The sizes [parse_uio_args] settles on. *)
Definition chosen_total_size (args : plusargs) : Z :=
  if arg_uio_size args =? 0 then 0x40000000 else arg_uio_size args.

Definition chosen_dram_size (args : plusargs) : Z :=
  match arg_dram_size args with
  | Some d => if d =? 0 then UIO_BOOTROM_OFFSET else d
  | None => UIO_BOOTROM_OFFSET
  end.

(** The lines about defaults [parse_uio_args] prints. *)
Definition default_lines (args : plusargs) : list event :=
  (if arg_uio_size args =? 0
   then [EvStderr (MsgDefaultUioSize 0x40000000)] else [])
  ++ (if match arg_dram_size args with Some d => d =? 0 | None => true end
      then [EvStderr (MsgDefaultDramSize UIO_BOOTROM_OFFSET)] else []).

(** The object after the member initialisers and the defaults, before the
    device is opened. *)
Definition prepared (args : plusargs) (s : state) : state :=
  mkState nullptr 0 (-1) (chosen_dram_size args)
          (open_fds s) (mappings s) (memory s)
          (trace s ++ default_lines args).

(** No mapping of [maps] starts at [base]. *)
Definition unmapped_at (base : Z) (maps : list (Z * Z)) : Prop :=
  forall m, In m maps -> fst m <> base.

(** The default instance after eight bytes, 1 to 8, were written at the
    start of main memory. *)
Definition written_state : state :=
  state_of (write_chunk 0x80000000 8
              [x01; x02; x03; x04; x05; x06; x07; x08] default_state).

(** What follows [p] in the last argument that starts with [p], if any. *)
Fixpoint last_with_prefix (p : string) (args : list string)
  : option string :=
  match args with
  | [] => None
  | arg :: rest =>
      match last_with_prefix p rest with
      | Some v => Some v
      | None =>
          if prefix p arg then Some (substr_from (String.length p) arg)
          else None
      end
  end.

(** A reading of the two numerals used in the examples, in place of
    [strtoull]. *)
Definition read_numeral (v : string) : Z :=
  if (v =? "0x1000")%string then 0x1000
  else if (v =? "0x800")%string then 0x800
  else 0.

(** * Facts *)

(** ** 64-bit arithmetic *)

Module U64Facts.
Import U64.

Lemma modulus_eq : modulus = 18446744073709551616.
Proof. reflexivity. Qed.

Lemma add_cases a b :
  in_range a -> in_range b ->
  (a + b < modulus /\ add a b = a + b) \/
  (modulus <= a + b /\ add a b = a + b - modulus).
Proof.
  unfold in_range, add, wrap. intros Ha Hb.
  destruct (Z_lt_le_dec (a + b) modulus) as [Hlt | Hge].
  - left. split; [assumption | apply Z.mod_small; lia].
  - right. split; [assumption |].
    symmetry. apply (Z.mod_unique _ _ 1); lia.
Qed.

Lemma sub_le a b : in_range a -> in_range b -> b <= a -> sub a b = a - b.
Proof.
  unfold in_range, sub, wrap. intros Ha Hb Hle. apply Z.mod_small. lia.
Qed.

End U64Facts.

Example default_state_fields :
  uio_base default_state = 0x7f0000000000 /\ uio_size default_state = 0x40000000 /\
  uio_fd default_state = 3 /\ dram_size default_state = 0x3fffc000 /\
  open_fds default_state = [3] /\
  mappings default_state = [(0x7f0000000000, 0x40000000)].
Proof. vm_compute. repeat split. Qed.

Example scenario_1_first_word : valid_at default_state 0x80000000 4 = true.
Proof. vm_compute. reflexivity. Qed.

Example scenario_1_end_of_memory :
  valid_at default_state (0x80000000 + 0x3fffc000) 4 = false.
Proof. vm_compute. reflexivity. Qed.

(** ** Translation and validation as pure functions of the state *)

Ltac run_method :=
  unfold bind, ret, gets, modify, throw, emit, fprintf_stderr; cbn.

Lemma rocket_addr_to_uio_offset_run a s :
  rocket_addr_to_uio_offset a s = (Ok (uio_offset_of a), warned a s).
Proof.
  unfold rocket_addr_to_uio_offset, uio_offset_of, warned, region_of.
  destruct ((ROCKET_BOOTROM_BASE <=? a) && (a <? ROCKET_BOOTROM_BASE + 0x2000));
    [reflexivity |].
  destruct ((ROCKET_CLINT_BASE <=? a) && (a <? ROCKET_CLINT_BASE + 0x10000));
    [reflexivity |].
  destruct (ROCKET_DRAM_BASE <=? a); reflexivity.
Qed.

Lemma warned_fields a s : same_but_trace s (warned a s).
Proof.
  unfold warned, same_but_trace.
  destruct (region_of a); cbn; repeat split; reflexivity.
Qed.

(** Closed goals about concrete inputs: comparisons of numerals, possibly
    under conjunctions. *)
Ltac by_evaluation :=
  vm_compute; repeat split; (discriminate || reflexivity).

(** Unfold the setters and project the fields of the records they build,
    and nothing else. *)
Ltac project_fields :=
  cbv beta iota delta
    [set_uio_base set_uio_size set_uio_fd set_dram_size set_open_fds
     set_mappings set_memory append_event
     uio_base uio_size uio_fd dram_size open_fds mappings memory trace].

(** One step of a method: unfold the operations of the monad and the
    setters, project the fields, and nothing else. *)
Ltac step_method :=
  cbv beta iota delta
    [bind ret gets modify emit fprintf_stderr throw
     set_uio_base set_uio_size set_uio_fd set_dram_size set_open_fds
     set_mappings set_memory append_event
     uio_base uio_size uio_fd dram_size open_fds mappings memory trace].

Ltac case_ifs :=
  repeat match goal with
         | |- context [if ?c then _ else _] => destruct c; cbn
         end.

Lemma valid_at_unfold s a len :
  valid_at s a len =
  if U64.add (uio_offset_of a) len >? uio_size s then false
  else match region_of a with
       | Some BootRom => U64.add a len <=? ROCKET_BOOTROM_BASE + 0x2000
       | Some Clint => U64.add a len <=? ROCKET_CLINT_BASE + 0x10000
       | Some Dram =>
           U64.add (U64.sub a ROCKET_DRAM_BASE) len <=? dram_size s
       | None => false
       end.
Proof.
  unfold valid_at, is_valid_address.
  unfold bind at 1. rewrite rocket_addr_to_uio_offset_run.
  destruct (warned_fields a s) as (_ & Hsize & _ & Hdram & _).
  unfold bind at 1. unfold gets at 1. rewrite Hsize.
  destruct (U64.add (uio_offset_of a) len >? uio_size s); [reflexivity |].
  unfold region_of. run_method.
  case_ifs; try rewrite Hdram; reflexivity.
Qed.

Lemma is_valid_address_run a len s :
  is_valid_address a len s = (Ok (valid_at s a len), warned a s).
Proof.
  assert (H : exists b, is_valid_address a len s = (Ok b, warned a s)).
  { unfold is_valid_address.
    unfold bind at 1. rewrite rocket_addr_to_uio_offset_run.
    run_method. case_ifs; eexists; reflexivity. }
  destruct H as [b H]. unfold valid_at. rewrite H. reflexivity.
Qed.

(** The region an address translates to, in terms of bounds. *)
Lemma region_of_spec a :
  match region_of a with
  | Some BootRom => ROCKET_BOOTROM_BASE <= a < ROCKET_BOOTROM_BASE + 0x2000
  | Some Clint => ROCKET_CLINT_BASE <= a < ROCKET_CLINT_BASE + 0x10000
  | Some Dram => ROCKET_DRAM_BASE <= a
  | None =>
      a < ROCKET_DRAM_BASE
      /\ ~ (ROCKET_BOOTROM_BASE <= a < ROCKET_BOOTROM_BASE + 0x2000)
      /\ ~ (ROCKET_CLINT_BASE <= a < ROCKET_CLINT_BASE + 0x10000)
  end.
Proof.
  unfold region_of, ROCKET_BOOTROM_BASE, ROCKET_CLINT_BASE, ROCKET_DRAM_BASE.
  repeat match goal with
         | |- context [Z.leb ?x ?y] => destruct (Z.leb_spec x y)
         | |- context [Z.ltb ?x ?y] => destruct (Z.ltb_spec x y)
         end; cbn [andb]; lia.
Qed.

(** Inside its region the offset is computed without wrap-around. *)
Lemma uio_offset_of_exact a r :
  U64.in_range a -> region_of a = Some r ->
  uio_offset_of a = region_window_offset r + (a - region_base r).
Proof.
  intros Ha Hr. unfold uio_offset_of. rewrite Hr.
  pose proof (region_of_spec a) as Hs. rewrite Hr in Hs.
  unfold U64.in_range in Ha. rewrite U64Facts.modulus_eq in Ha.
  unfold U64.add, U64.sub, U64.wrap. rewrite U64Facts.modulus_eq.
  destruct r; cbn [region_window_offset region_base];
    unfold UIO_BOOTROM_OFFSET, UIO_CLINT_OFFSET, UIO_DRAM_OFFSET,
      ROCKET_BOOTROM_BASE, ROCKET_CLINT_BASE, ROCKET_DRAM_BASE in *;
    rewrite (Z.mod_small (a - _)) by lia; apply Z.mod_small; lia.
Qed.

(** ** The bounds check, in exact arithmetic *)

Ltac unfold_layout :=
  unfold UIO_BOOTROM_OFFSET, UIO_CLINT_OFFSET, UIO_DRAM_OFFSET,
    ROCKET_BOOTROM_BASE, ROCKET_CLINT_BASE, ROCKET_DRAM_BASE in *.

Ltac leb_to_prop :=
  repeat match goal with
         | |- context [Z.gtb ?x ?y] => rewrite (Z.gtb_ltb x y)
         | H : context [Z.gtb ?x ?y] |- _ => rewrite (Z.gtb_ltb x y) in H
         | |- context [Z.leb ?x ?y] => destruct (Z.leb_spec x y)
         | |- context [Z.ltb ?x ?y] => destruct (Z.ltb_spec x y)
         | H : context [Z.leb ?x ?y] |- _ => destruct (Z.leb_spec x y)
         | H : context [Z.ltb ?x ?y] |- _ => destruct (Z.ltb_spec x y)
         end.

(** An access that fits, in exact arithmetic, both the window and the
    region of its address is accepted. *)
Lemma valid_at_complete s a len r :
  U64.in_range a -> U64.in_range len -> sizes_in_range s ->
  region_of a = Some r ->
  region_window_offset r + (a - region_base r) + len <= uio_size s ->
  a + len <= region_end s r ->
  valid_at s a len = true.
Proof.
  intros Ha Hl [Hus Hds] Hr Hwin Hend.
  rewrite valid_at_unfold, (uio_offset_of_exact a r Ha Hr), Hr.
  pose proof (region_of_spec a) as Hs. rewrite Hr in Hs.
  assert (Hoff : U64.in_range (region_window_offset r + (a - region_base r))).
  { unfold U64.in_range in *. rewrite U64Facts.modulus_eq in *.
    destruct r; cbn [region_window_offset region_base];
      unfold_layout; lia. }
  destruct (U64Facts.add_cases _ _ Hoff Hl) as [[_ E] | [Hw _]].
  2:{ unfold U64.in_range in *. lia. }
  rewrite E. clear E.
  destruct r; cbn [region_window_offset region_base region_end] in *.
  - destruct (U64Facts.add_cases _ _ Ha Hl) as [[_ E] | [Hw _]].
    2:{ unfold U64.in_range in *. rewrite U64Facts.modulus_eq in *.
        unfold_layout. lia. }
    rewrite E. leb_to_prop; try reflexivity; lia.
  - destruct (U64Facts.add_cases _ _ Ha Hl) as [[_ E] | [Hw _]].
    2:{ unfold U64.in_range in *. rewrite U64Facts.modulus_eq in *.
        unfold_layout. lia. }
    rewrite E. leb_to_prop; try reflexivity; lia.
  - assert (Hsub : U64.sub a ROCKET_DRAM_BASE = a - ROCKET_DRAM_BASE).
    { apply U64Facts.sub_le; [assumption | | assumption].
      unfold U64.in_range. rewrite U64Facts.modulus_eq. unfold_layout. lia. }
    rewrite Hsub.
    assert (Hd : U64.in_range (a - ROCKET_DRAM_BASE)).
    { unfold U64.in_range in *. unfold_layout. lia. }
    destruct (U64Facts.add_cases _ _ Hd Hl) as [[_ E] | [Hw _]].
    2:{ unfold U64.in_range in *. lia. }
    rewrite E. unfold_layout. leb_to_prop; try reflexivity; lia.
Qed.

(** An access whose last address does not wrap around [2^64] and that is
    accepted fits both the window and the region of its address. *)
Lemma valid_at_sound_nowrap s a len :
  U64.in_range a -> U64.in_range len ->
  a + len < U64.modulus ->
  valid_at s a len = true ->
  exists r,
    region_of a = Some r
    /\ region_window_offset r + (a - region_base r) + len <= uio_size s
    /\ a + len <= region_end s r.
Proof.
  intros Ha Hl Hnw Hv.
  rewrite valid_at_unfold in Hv.
  destruct (region_of a) as [r |] eqn:Hr.
  2:{ destruct (_ >? _); discriminate. }
  exists r. split; [reflexivity |].
  rewrite (uio_offset_of_exact a r Ha Hr) in Hv.
  pose proof (region_of_spec a) as Hs. rewrite Hr in Hs.
  assert (Hadd : U64.add a len = a + len).
  { destruct (U64Facts.add_cases _ _ Ha Hl) as [[_ E] | [Hw _]];
      [assumption | lia]. }
  assert (Hoff : U64.in_range (region_window_offset r + (a - region_base r))).
  { unfold U64.in_range in *. rewrite U64Facts.modulus_eq in *.
    destruct r; cbn [region_window_offset region_base];
      unfold_layout; lia. }
  destruct r; cbn [region_window_offset region_base region_end] in *.
  - rewrite Hadd in Hv.
    destruct (U64Facts.add_cases _ _ Hoff Hl) as [[_ E] | [Hw E]];
      rewrite E in Hv; clear E;
      unfold U64.in_range in *; rewrite U64Facts.modulus_eq in *;
      unfold_layout; leb_to_prop; try discriminate; lia.
  - rewrite Hadd in Hv.
    destruct (U64Facts.add_cases _ _ Hoff Hl) as [[_ E] | [Hw E]];
      rewrite E in Hv; clear E;
      unfold U64.in_range in *; rewrite U64Facts.modulus_eq in *;
      unfold_layout; leb_to_prop; try discriminate; lia.
  - assert (Hsub : U64.sub a ROCKET_DRAM_BASE = a - ROCKET_DRAM_BASE).
    { apply U64Facts.sub_le; [assumption | | assumption].
      unfold U64.in_range. rewrite U64Facts.modulus_eq. unfold_layout. lia. }
    rewrite Hsub in Hv.
    destruct (U64Facts.add_cases _ _ Hoff Hl) as [[_ E] | [Hw E]].
    2:{ unfold U64.in_range in *. unfold_layout. lia. }
    replace (UIO_DRAM_OFFSET + (a - ROCKET_DRAM_BASE))
      with (a - ROCKET_DRAM_BASE) in * by (unfold_layout; lia).
    rewrite E in Hv. clear E.
    unfold_layout. leb_to_prop; try discriminate; lia.
Qed.

(** Whenever [rocket_addr + len] does not wrap around [2^64], the answer
    of [is_valid_address] is the conjunction of the three conditions, each
    read in exact arithmetic. *)
Lemma is_valid_address_iff_nowrap s a len :
  U64.in_range a -> U64.in_range len -> sizes_in_range s ->
  a + len < U64.modulus ->
  (valid_at s a len = true <->
   exists r,
     region_of a = Some r
     /\ region_window_offset r + (a - region_base r) + len <= uio_size s
     /\ a + len <= region_end s r).
Proof.
  intros Ha Hl Hs Hnw. split.
  - now apply valid_at_sound_nowrap.
  - intros (r & Hr & Hwin & Hend). now apply (valid_at_complete s a len r).
Qed.

(** An address inside a region translates to that region. *)
Lemma in_region_region_of s r a :
  U64.in_range (dram_size s) -> in_region s r a -> region_of a = Some r.
Proof.
  unfold in_region, U64.in_range. intros Hd Hin.
  pose proof (region_of_spec a) as Hs.
  destruct r; cbn [region_base region_end] in Hin;
    destruct (region_of a) as [[| |] |]; unfold_layout;
    try reflexivity; lia.
Qed.

(** Without wrap-around, an access that starts inside a region and runs
    past its end is refused. *)
Lemma region_crossing_refused_nowrap s r a len :
  U64.in_range a -> U64.in_range len -> sizes_in_range s ->
  in_region s r a -> region_end s r < a + len ->
  a + len < U64.modulus ->
  valid_at s a len = false.
Proof.
  intros Ha Hl Hs Hin Hcross Hnw.
  destruct (valid_at s a len) eqn:Hv; [exfalso | reflexivity].
  destruct (valid_at_sound_nowrap s a len Ha Hl Hnw Hv) as (r' & Hr' & _ & He).
  rewrite (in_region_region_of s r a (proj2 Hs) Hin) in Hr'.
  injection Hr' as <-. lia.
Qed.

(** For a length of at most 2^31 none of the sums of [is_valid_address]
    wraps, so an access it accepts fits exactly. *)
Lemma valid_at_sound_capped s a len :
  U64.in_range a -> 0 <= len <= 0x80000000 ->
  valid_at s a len = true -> fits_exactly s a len.
Proof.
  intros Ha Hl Hv.
  assert (Hlr : U64.in_range len).
  { unfold U64.in_range. rewrite U64Facts.modulus_eq. lia. }
  destruct (Z_lt_le_dec (a + len) U64.modulus) as [Hnw | Hw].
  { exact (valid_at_sound_nowrap s a len Ha Hlr Hnw Hv). }
  pose proof (region_of_spec a) as Hs.
  unfold U64.in_range in Ha. rewrite U64Facts.modulus_eq in *.
  assert (Hr : region_of a = Some Dram).
  { destruct (region_of a) as [[| |] |]; unfold_layout;
      try reflexivity; lia. }
  assert (Hsub : U64.sub a ROCKET_DRAM_BASE = a - ROCKET_DRAM_BASE).
  { apply U64Facts.sub_le;
      unfold U64.in_range; rewrite ?U64Facts.modulus_eq;
      unfold_layout; lia. }
  assert (Hadd : U64.add (a - ROCKET_DRAM_BASE) len
                 = a - ROCKET_DRAM_BASE + len).
  { unfold U64.add, U64.wrap. rewrite U64Facts.modulus_eq.
    apply Z.mod_small. unfold_layout. lia. }
  rewrite valid_at_unfold, Hr, Hsub in Hv.
  rewrite (uio_offset_of_exact a Dram) in Hv;
    [| unfold U64.in_range; rewrite U64Facts.modulus_eq; lia | exact Hr].
  cbn [region_window_offset region_base] in Hv.
  unfold UIO_DRAM_OFFSET in Hv. rewrite Z.add_0_l, Hadd in Hv.
  exists Dram. split; [exact Hr |].
  cbn [region_window_offset region_base region_end].
  unfold_layout. leb_to_prop; try discriminate; lia.
Qed.

(** The same with [valid_at], for the proofs below. *)
Lemma valid_at_exact s a len :
  U64.in_range a -> 0 <= len <= 0x80000000 -> sizes_in_range s ->
  (valid_at s a len = true <-> fits_exactly s a len).
Proof.
  intros Ha Hl Hs.
  assert (Hlr : U64.in_range len).
  { unfold U64.in_range. rewrite U64Facts.modulus_eq. lia. }
  split.
  - now apply valid_at_sound_capped.
  - intros (r & Hr & Hwin & Hend). now apply (valid_at_complete s a len r).
Qed.

(** Where an access that fits exactly lies in the window. *)
Lemma fits_exactly_offset s a len :
  U64.in_range a -> fits_exactly s a len ->
  0 <= uio_offset_of a /\ uio_offset_of a + len <= uio_size s.
Proof.
  intros Ha (r & Hr & Hwin & Hend).
  rewrite (uio_offset_of_exact a r Ha Hr).
  pose proof (region_of_spec a) as Hs. rewrite Hr in Hs.
  split; [| exact Hwin].
  destruct r; cbn [region_window_offset region_base]; unfold_layout; lia.
Qed.

(** ** The claims about translation and validation *)

(** C1 (the code departs from the claim).  For the default configuration
    [is_valid_address (0x1000, 2^64 - 1)] answers true: the address
    translates to the boot ROM, at window offset 0x3fffc000, but neither
    does the offset plus the length fit the window of 0x40000000 bytes nor
    does the address plus the length stay below the end of the boot ROM.
    Both sums wrap around [2^64] in the code.  [is_valid_address_iff_nowrap]
    is the equivalence of the claim for the accesses that do not wrap. *)
Theorem is_valid_address_accepts_wrapped_length :
  is_valid_address 0x1000 0xffffffffffffffff default_state
    = (Ok true, default_state)
  /\ region_of 0x1000 = Some BootRom
  /\ uio_offset_of 0x1000 = 0x3fffc000
  /\ ~ (uio_offset_of 0x1000 + 0xffffffffffffffff <= uio_size default_state)
  /\ ~ (0x1000 + 0xffffffffffffffff <= region_end default_state BootRom).
Proof.
  rewrite is_valid_address_run.
  destruct default_state_fields as (_ & Hsize & _ & Hdram & _).
  split; [vm_compute; reflexivity |].
  split; [reflexivity |].
  split; [reflexivity |].
  split.
  - rewrite Hsize. vm_compute. intros H. apply H. reflexivity.
  - cbn [region_end]. unfold_layout. lia.
Qed.

(** C2 (the code departs from the claim).  In the default configuration
    0x80000001 lies inside main memory and 0x80000001 + (2^64 - 1), in exact
    arithmetic, is past the end of main memory, yet [is_valid_address]
    answers true: both sums of the code wrap around [2^64] to 0.
    [region_crossing_refused_nowrap] is the claim for the accesses that do
    not wrap. *)
Theorem is_valid_address_misses_wrapped_crossing :
  in_region default_state Dram 0x80000001
  /\ region_end default_state Dram < 0x80000001 + 0xffffffffffffffff
  /\ is_valid_address 0x80000001 0xffffffffffffffff default_state
       = (Ok true, default_state).
Proof.
  rewrite is_valid_address_run.
  destruct default_state_fields as (_ & Hsize & _ & Hdram & _).
  unfold in_region. cbn [region_base region_end]. rewrite Hdram.
  unfold_layout.
  split; [lia |]. split; [lia |].
  vm_compute. reflexivity.
Qed.

(** C3, counterexample.  In the default configuration main memory ends at
    0xbfffc000.  For the address 0xc0000000, above that end, an access of 4
    bytes is refused but no warning is printed; and an access whose length
    makes the sums of the code wrap around [2^64] is accepted. *)
Lemma above_main_memory_no_warning :
  region_end default_state Dram < 0xc0000000
  /\ ~ (value_of (is_valid_address 0xc0000000 4 default_state) = Ok false
        /\ warning_recorded default_state
             (state_of (is_valid_address 0xc0000000 4 default_state))
             0xc0000000)
  /\ value_of (is_valid_address 0xc0000000 0xffffffffc0000000 default_state)
       = Ok true.
Proof.
  split; [vm_compute; reflexivity |].
  split; [| vm_compute; reflexivity].
  intros [_ H]. unfold warning_recorded, added_events in H.
  vm_compute in H. discriminate H.
Qed.

(** C3, amended.  An address below the base of main memory and outside the
    boot ROM and the interrupt-control block is refused for every length,
    and the warning is printed.  An address above the end of main memory
    takes the main-memory branch of the translation: nothing is printed,
    and the access is refused for every length that does not carry
    [a + len] past [2^64]. *)
Theorem unmapped_address_refused s a len :
  U64.in_range a -> U64.in_range len -> U64.in_range (dram_size s) ->
  (a < ROCKET_DRAM_BASE ->
   ~ in_region s BootRom a -> ~ in_region s Clint a ->
   value_of (is_valid_address a len s) = Ok false
   /\ warning_recorded s (state_of (is_valid_address a len s)) a)
  /\ (region_end s Dram < a -> a + len < U64.modulus ->
      value_of (is_valid_address a len s) = Ok false
      /\ state_of (is_valid_address a len s) = s).
Proof.
  intros Ha Hl Hd. rewrite is_valid_address_run.
  unfold value_of, state_of. cbn [fst snd].
  pose proof (region_of_spec a) as Hs.
  split.
  - intros Hlow Hrom Hclint.
    unfold in_region in Hrom, Hclint. cbn [region_base region_end] in *.
    assert (Hr : region_of a = None).
    { destruct (region_of a) as [[| |] |]; try reflexivity; lia. }
    split.
    + rewrite valid_at_unfold, Hr. now destruct (_ >? _).
    + unfold warning_recorded, added_events, warned. rewrite Hr. reflexivity.
  - cbn [region_end]. intros Habove Hnw.
    assert (Hr : region_of a = Some Dram).
    { unfold U64.in_range in Hd.
      destruct (region_of a) as [[| |] |]; unfold_layout;
        try reflexivity; lia. }
    split.
    + destruct (valid_at s a len) eqn:Hv; [exfalso | reflexivity].
      destruct (valid_at_sound_nowrap s a len Ha Hl Hnw Hv)
        as (r & Hr' & _ & He).
      rewrite Hr in Hr'. injection Hr' as <-.
      cbn [region_end] in He. unfold U64.in_range in Hl. lia.
    + unfold warned. rewrite Hr. reflexivity.
Qed.

(** Both cases in the default configuration: 0x100 is in no region,
    0xc0000000 is above the end of main memory. *)
Lemma unmapped_address_refused_witness :
  (value_of (is_valid_address 0x100 8 default_state) = Ok false
   /\ warning_recorded default_state
        (state_of (is_valid_address 0x100 8 default_state)) 0x100)
  /\ (value_of (is_valid_address 0xc0000000 8 default_state) = Ok false
      /\ state_of (is_valid_address 0xc0000000 8 default_state)
         = default_state).
Proof.
  split.
  - apply (unmapped_address_refused default_state 0x100 8);
      try by_evaluation;
      unfold in_region; cbn [region_base region_end]; unfold_layout; lia.
  - apply (unmapped_address_refused default_state 0xc0000000 8);
      by_evaluation.
Defined.

(** C4.  For an address [a] of main memory and a length [len] such that
    [a + len] does not pass the end of main memory, with main memory no
    larger than the window, the translation of [a] is [a - 0x80000000] and
    the access is valid. *)
Theorem main_memory_access_valid s a len :
  U64.in_range a -> U64.in_range len -> sizes_in_range s ->
  ROCKET_DRAM_BASE <= a < ROCKET_DRAM_BASE + dram_size s ->
  a + len <= ROCKET_DRAM_BASE + dram_size s ->
  dram_size s <= uio_size s ->
  rocket_addr_to_uio_offset a s = (Ok (a - ROCKET_DRAM_BASE), s)
  /\ is_valid_address a len s = (Ok true, s).
Proof.
  intros Ha Hl Hs Hin Hend Hfit.
  assert (Hr : region_of a = Some Dram).
  { apply (in_region_region_of s); [apply Hs | exact Hin]. }
  rewrite rocket_addr_to_uio_offset_run, is_valid_address_run.
  rewrite (uio_offset_of_exact a Dram Ha Hr).
  unfold warned. rewrite Hr. cbn [region_window_offset region_base].
  split.
  - unfold UIO_DRAM_OFFSET. rewrite Z.add_0_l. reflexivity.
  - f_equal. f_equal.
    apply (valid_at_complete s a len Dram Ha Hl Hs Hr);
      cbn [region_window_offset region_base region_end];
      unfold_layout; lia.
Qed.

(** One MiB at 0x80001000 in the default configuration. *)
Lemma main_memory_access_valid_witness :
  rocket_addr_to_uio_offset 0x80001000 default_state
    = (Ok (0x80001000 - ROCKET_DRAM_BASE), default_state)
  /\ is_valid_address 0x80001000 0x100000 default_state
     = (Ok true, default_state).
Proof.
  apply (main_memory_access_valid default_state 0x80001000 0x100000);
    by_evaluation.
Defined.

(** C10.  Every address from 0x80000000 upwards takes the main-memory
    branch of the translation: the offset is [a - 0x80000000], nothing is
    printed, and no upper bound is tested.  For such an address the answer
    of [is_valid_address] is the conjunction of its two length checks. *)
Theorem translation_has_no_upper_bound s a len :
  U64.in_range a -> ROCKET_DRAM_BASE <= a ->
  rocket_addr_to_uio_offset a s = (Ok (a - ROCKET_DRAM_BASE), s)
  /\ is_valid_address a len s =
       (Ok ((U64.add (a - ROCKET_DRAM_BASE) len <=? uio_size s)
            && (U64.add (a - ROCKET_DRAM_BASE) len <=? dram_size s)), s).
Proof.
  intros Ha Hge.
  assert (Hr : region_of a = Some Dram).
  { pose proof (region_of_spec a) as Hs.
    destruct (region_of a) as [[| |] |]; unfold_layout;
      try reflexivity; lia. }
  assert (Hsub : U64.sub a ROCKET_DRAM_BASE = a - ROCKET_DRAM_BASE).
  { apply U64Facts.sub_le; [assumption | | assumption].
    unfold U64.in_range. rewrite U64Facts.modulus_eq. unfold_layout. lia. }
  rewrite rocket_addr_to_uio_offset_run, is_valid_address_run.
  rewrite valid_at_unfold, (uio_offset_of_exact a Dram Ha Hr), Hr.
  unfold warned. rewrite Hr, Hsub.
  cbn [region_window_offset region_base].
  unfold UIO_DRAM_OFFSET. rewrite Z.add_0_l.
  split; [reflexivity |].
  rewrite Z.gtb_ltb, Z.ltb_antisym.
  destruct (U64.add (a - ROCKET_DRAM_BASE) len <=? uio_size s); reflexivity.
Qed.

(** 0xc0000000 is above the end of main memory in the default
    configuration and still translates, to offset 0x40000000. *)
Lemma translation_has_no_upper_bound_witness :
  region_end default_state Dram < 0xc0000000
  /\ rocket_addr_to_uio_offset 0xc0000000 default_state
     = (Ok (0xc0000000 - ROCKET_DRAM_BASE), default_state)
  /\ is_valid_address 0xc0000000 8 default_state
     = (Ok ((U64.add (0xc0000000 - ROCKET_DRAM_BASE) 8
               <=? uio_size default_state)
            && (U64.add (0xc0000000 - ROCKET_DRAM_BASE) 8
                  <=? dram_size default_state)), default_state).
Proof.
  split; [by_evaluation |].
  apply (translation_has_no_upper_bound default_state 0xc0000000 8);
    by_evaluation.
Defined.

(** ** Bytes of the window *)

Lemma load_bytes_length m p len :
  List.length (load_bytes m p len) = Z.to_nat len.
Proof. unfold load_bytes. now rewrite length_map, length_seq. Qed.

(** Reading back what was stored. *)
Lemma load_store_bytes m p len src :
  0 <= len -> List.length src = Z.to_nat len ->
  load_bytes (store_bytes m p len src) p len = src.
Proof.
  intros Hlen Hsrc.
  apply (nth_ext _ _ x00 x00).
  - now rewrite load_bytes_length.
  - intros n Hn. rewrite load_bytes_length in Hn.
    unfold load_bytes.
    rewrite (nth_indep _ x00 (store_bytes m p len src (p + Z.of_nat 0)))
      by (rewrite length_map, length_seq; exact Hn).
    rewrite (map_nth (fun i => store_bytes m p len src (p + Z.of_nat i))).
    rewrite seq_nth by exact Hn. cbn [Nat.add].
    unfold store_bytes.
    destruct (Z.leb_spec p (p + Z.of_nat n)); [| lia].
    destruct (Z.ltb_spec (p + Z.of_nat n) (p + len)); [| lia].
    cbn [andb]. f_equal. lia.
Qed.

(** Reading back what was cleared. *)
Lemma load_fill_bytes m p c len :
  load_bytes (fill_bytes m p c len) p len = repeat c (Z.to_nat len).
Proof.
  unfold load_bytes.
  assert (H : forall n k, (k + n <= Z.to_nat len)%nat ->
            map (fun i => fill_bytes m p c len (p + Z.of_nat i)) (seq k n)
            = repeat c n).
  { induction n as [| n IH]; intros k Hk; [reflexivity |].
    cbn [seq map repeat]. rewrite IH by lia. f_equal.
    unfold fill_bytes.
    destruct (Z.leb_spec p (p + Z.of_nat k)); [| lia].
    destruct (Z.ltb_spec (p + Z.of_nat k) (p + len)); [reflexivity | lia]. }
  apply H. lia.
Qed.

(** ** The chunk operations *)

(** A valid address translates to a region: validation prints nothing. *)
Lemma valid_at_warned s a len : valid_at s a len = true -> warned a s = s.
Proof.
  rewrite valid_at_unfold. unfold warned.
  destruct (region_of a); [reflexivity |].
  destruct (_ >? _); discriminate.
Qed.

(** Validation depends on the two sizes only. *)
Lemma valid_at_sizes s s' a len :
  uio_size s' = uio_size s -> dram_size s' = dram_size s ->
  valid_at s' a len = valid_at s a len.
Proof. intros Hu Hd. now rewrite !valid_at_unfold, Hu, Hd. Qed.

Lemma access_in_window_fields s s' p len :
  uio_base s' = uio_base s -> uio_size s' = uio_size s ->
  access_in_window s' p len = access_in_window s p len.
Proof. intros Hb Hs. unfold access_in_window. now rewrite Hb, Hs. Qed.

Lemma memcpy_from_run p len s :
  memcpy_from p len s =
  if access_in_window s p len
  then (Ok (load_bytes (memory s) p len),
        append_event (EvCopyFromWindow p len) s)
  else (Fault, append_event (EvCopyFromWindow p len) s).
Proof.
  unfold memcpy_from, bind, emit, modify, gets, fault.
  rewrite (access_in_window_fields s) by reflexivity.
  destruct (access_in_window s p len); reflexivity.
Qed.

Lemma memcpy_to_run p src len s :
  memcpy_to p src len s =
  if access_in_window s p len
  then (Ok tt,
        set_memory (store_bytes (memory s) p len src)
          (append_event (EvCopyToWindow p len src) s))
  else (Fault, append_event (EvCopyToWindow p len src) s).
Proof.
  unfold memcpy_to, bind, emit, modify, gets, fault.
  rewrite (access_in_window_fields s) by reflexivity.
  destruct (access_in_window s p len); reflexivity.
Qed.

Lemma memset_run p c len s :
  memset p c len s =
  if access_in_window s p len
  then (Ok tt,
        set_memory (fill_bytes (memory s) p c len)
          (append_event (EvFillWindow p c len) s))
  else (Fault, append_event (EvFillWindow p c len) s).
Proof.
  unfold memset, bind, emit, modify, gets, fault.
  rewrite (access_in_window_fields s) by reflexivity.
  destruct (access_in_window s p len); reflexivity.
Qed.

Lemma read_chunk_run s a len :
  read_chunk a len s =
  if valid_at s a len
  then
    if access_in_window s (uio_base s + uio_offset_of a) len
    then (Ok (load_bytes (memory s) (uio_base s + uio_offset_of a) len),
          append_event
            (EvCopyFromWindow (uio_base s + uio_offset_of a) len) s)
    else (Fault,
          append_event
            (EvCopyFromWindow (uio_base s + uio_offset_of a) len) s)
  else (Throw (runtime_error "Read address out of bounds"),
        append_event (EvStderr (MsgReadOutOfBounds a len)) (warned a s)).
Proof.
  unfold read_chunk. unfold bind at 1. rewrite is_valid_address_run.
  destruct (valid_at s a len) eqn:Hv; [| reflexivity].
  rewrite (valid_at_warned s a len Hv).
  unfold bind at 1. cbn [negb]. unfold ret at 1.
  unfold bind at 1. rewrite rocket_addr_to_uio_offset_run.
  rewrite (valid_at_warned s a len Hv).
  unfold bind at 1, gets at 1. apply memcpy_from_run.
Qed.

Lemma write_chunk_run s a len src :
  write_chunk a len src s =
  if valid_at s a len
  then
    if access_in_window s (uio_base s + uio_offset_of a) len
    then (Ok tt,
          append_event EvFence
            (set_memory
               (store_bytes (memory s) (uio_base s + uio_offset_of a) len
                            src)
               (append_event
                  (EvCopyToWindow (uio_base s + uio_offset_of a) len src)
                  s)))
    else (Fault,
          append_event
            (EvCopyToWindow (uio_base s + uio_offset_of a) len src) s)
  else (Throw (runtime_error "Write address out of bounds"),
        append_event (EvStderr (MsgWriteOutOfBounds a len)) (warned a s)).
Proof.
  unfold write_chunk. unfold bind at 1. rewrite is_valid_address_run.
  destruct (valid_at s a len) eqn:Hv; [| reflexivity].
  rewrite (valid_at_warned s a len Hv).
  unfold bind at 1. cbn [negb]. unfold ret at 1.
  unfold bind at 1. rewrite rocket_addr_to_uio_offset_run.
  rewrite (valid_at_warned s a len Hv).
  unfold bind at 1, gets at 1. unfold bind at 1. rewrite memcpy_to_run.
  destruct (access_in_window s (uio_base s + uio_offset_of a) len);
    reflexivity.
Qed.

Lemma clear_chunk_run s a len :
  clear_chunk a len s =
  if valid_at s a len
  then
    if access_in_window s (uio_base s + uio_offset_of a) len
    then (Ok tt,
          append_event EvFence
            (set_memory
               (fill_bytes (memory s) (uio_base s + uio_offset_of a) x00
                           len)
               (append_event
                  (EvFillWindow (uio_base s + uio_offset_of a) x00 len)
                  s)))
    else (Fault,
          append_event
            (EvFillWindow (uio_base s + uio_offset_of a) x00 len) s)
  else (Throw (runtime_error "Clear address out of bounds"),
        append_event (EvStderr (MsgClearOutOfBounds a len)) (warned a s)).
Proof.
  unfold clear_chunk. unfold bind at 1. rewrite is_valid_address_run.
  destruct (valid_at s a len) eqn:Hv; [| reflexivity].
  rewrite (valid_at_warned s a len Hv).
  unfold bind at 1. cbn [negb]. unfold ret at 1.
  unfold bind at 1. rewrite rocket_addr_to_uio_offset_run.
  rewrite (valid_at_warned s a len Hv).
  unfold bind at 1, gets at 1. unfold bind at 1. rewrite memset_run.
  destruct (access_in_window s (uio_base s + uio_offset_of a) len);
    reflexivity.
Qed.

(** An access that fits exactly stays in the window. *)
Lemma fits_exactly_in_window s a len :
  U64.in_range a -> 0 <= len -> fits_exactly s a len ->
  access_in_window s (uio_base s + uio_offset_of a) len = true.
Proof.
  intros Ha Hlen (r & Hr & Hwin & Hend).
  rewrite (uio_offset_of_exact a r Ha Hr).
  pose proof (region_of_spec a) as Hs. rewrite Hr in Hs.
  unfold access_in_window. apply orb_true_iff. right.
  apply andb_true_iff. split; [apply Z.leb_le | apply Z.leb_le; lia].
  destruct r; cbn [region_window_offset region_base]; unfold_layout; lia.
Qed.

(** An accepted access of at most 2^31 bytes stays in the window. *)
Lemma valid_at_in_window s a len :
  U64.in_range a -> 0 <= len <= 0x80000000 ->
  valid_at s a len = true ->
  access_in_window s (uio_base s + uio_offset_of a) len = true.
Proof.
  intros Ha Hl Hv. apply fits_exactly_in_window; [assumption | lia |].
  now apply valid_at_sound_capped.
Qed.

(** X23.  Within the chunk cap, and up to 2^31 bytes, each chunk operation
    is all or nothing.  When [is_valid_address] answers false the operation
    throws its out-of-bounds error, and all it did is print.  When it
    answers true the operation returns: [read_chunk] returns the [len]
    bytes of the window at the offset, [write_chunk] has put every byte of
    [src] at its place and [clear_chunk] a zero, no other byte has changed,
    and for the two of them the fence follows the copy. *)
Theorem chunk_operations_atomic_within_cap s a len src :
  U64.in_range a -> 0 <= len <= 0x80000000 ->
  let p := uio_base s + uio_offset_of a in
  let rd := read_chunk a len s in
  let wr := write_chunk a len src s in
  let cl := clear_chunk a len s in
  value_of (is_valid_address a len s) = Ok (valid_at s a len)
  /\ if valid_at s a len then
       (exists bs,
          value_of rd = Ok bs
          /\ List.length bs = Z.to_nat len
          /\ (forall i, 0 <= i < len ->
                        nth (Z.to_nat i) bs x00 = memory s (p + i))
          /\ memory (state_of rd) = memory s
          /\ added_events s (state_of rd) [EvCopyFromWindow p len])
       /\ (value_of wr = Ok tt
           /\ (forall q, memory (state_of wr) q =
                         if (p <=? q) && (q <? p + len)
                         then nth (Z.to_nat (q - p)) src x00
                         else memory s q)
           /\ added_events s (state_of wr)
                [EvCopyToWindow p len src; EvFence])
       /\ (value_of cl = Ok tt
           /\ (forall q, memory (state_of cl) q =
                         if (p <=? q) && (q <? p + len)
                         then x00
                         else memory s q)
           /\ added_events s (state_of cl)
                [EvFillWindow p x00 len; EvFence])
     else
       (value_of rd = Throw (runtime_error "Read address out of bounds")
        /\ only_printed s (state_of rd))
       /\ (value_of wr = Throw (runtime_error "Write address out of bounds")
           /\ only_printed s (state_of wr))
       /\ (value_of cl = Throw (runtime_error "Clear address out of bounds")
           /\ only_printed s (state_of cl)).
Proof.
  intros Ha Hl. cbv zeta.
  rewrite is_valid_address_run, read_chunk_run, write_chunk_run,
    clear_chunk_run.
  split; [reflexivity |].
  destruct (valid_at s a len) eqn:Hv.
  - rewrite (valid_at_in_window s a len Ha Hl Hv).
    unfold value_of, state_of, added_events;
      cbn [fst snd memory trace append_event set_memory].
    rewrite <- !app_assoc.
    split; [| split; repeat split; reflexivity].
    eexists. split; [reflexivity |].
    split; [apply load_bytes_length |].
    split; [| split; reflexivity].
    intros i Hi. unfold load_bytes.
    rewrite (nth_indep _ x00 (memory s (uio_base s + uio_offset_of a
                                        + Z.of_nat 0)))
      by (rewrite length_map, length_seq; lia).
    rewrite (map_nth (fun j => memory s (uio_base s + uio_offset_of a
                                         + Z.of_nat j))).
    rewrite seq_nth by lia. cbn [Nat.add]. f_equal. lia.
  - unfold value_of, state_of; cbn [fst snd].
    assert (Hp : forall m,
      only_printed s (append_event (EvStderr m) (warned a s))).
    { intros m. unfold only_printed, same_but_trace, added_events, warned.
      destruct (region_of a); cbn.
      - split; [repeat split; reflexivity |].
        exists [EvStderr m]. split; [reflexivity |].
        repeat constructor. now exists m.
      - split; [repeat split; reflexivity |].
        exists [EvStderr (MsgUnmapped a); EvStderr m].
        split; [now rewrite <- app_assoc |].
        repeat constructor; eexists; reflexivity. }
    repeat split; apply Hp.
Qed.

(** Eight bytes at the first word of main memory, over the eight written
    before: the access is accepted, so the first branch is the one that
    holds. *)
Lemma chunk_operations_atomic_within_cap_witness :
  valid_at written_state 0x80000000 8 = true
  /\ memory written_state (uio_base written_state
                           + uio_offset_of 0x80000000) = x01
  /\ let s := written_state in
     let a := 0x80000000 in
     let len := 8 in
     let src := [x11; x12; x13; x14; x15; x16; x17; x18] in
     let p := uio_base s + uio_offset_of a in
     let rd := read_chunk a len s in
     let wr := write_chunk a len src s in
     let cl := clear_chunk a len s in
     value_of (is_valid_address a len s) = Ok (valid_at s a len)
     /\ if valid_at s a len then
          (exists bs,
             value_of rd = Ok bs
             /\ List.length bs = Z.to_nat len
             /\ (forall i, 0 <= i < len ->
                           nth (Z.to_nat i) bs x00 = memory s (p + i))
             /\ memory (state_of rd) = memory s
             /\ added_events s (state_of rd) [EvCopyFromWindow p len])
          /\ (value_of wr = Ok tt
              /\ (forall q, memory (state_of wr) q =
                            if (p <=? q) && (q <? p + len)
                            then nth (Z.to_nat (q - p)) src x00
                            else memory s q)
              /\ added_events s (state_of wr)
                   [EvCopyToWindow p len src; EvFence])
          /\ (value_of cl = Ok tt
              /\ (forall q, memory (state_of cl) q =
                            if (p <=? q) && (q <? p + len)
                            then x00
                            else memory s q)
              /\ added_events s (state_of cl)
                   [EvFillWindow p x00 len; EvFence])
        else
          (value_of rd = Throw (runtime_error "Read address out of bounds")
           /\ only_printed s (state_of rd))
          /\ (value_of wr
              = Throw (runtime_error "Write address out of bounds")
              /\ only_printed s (state_of wr))
          /\ (value_of cl
              = Throw (runtime_error "Clear address out of bounds")
              /\ only_printed s (state_of cl)).
Proof.
  split; [vm_compute; reflexivity |].
  split; [vm_compute; reflexivity |].
  apply (chunk_operations_atomic_within_cap written_state 0x80000000 8
           [x11; x12; x13; x14; x15; x16; x17; x18]);
    by_evaluation.
Defined.

(** C5 (the code departs from the claim).  In the default configuration
    [is_valid_address (0x2ff8, 2^64 - 1)] answers true, by the two sums
    that wrap around [2^64], but the operations do not complete: the fill
    of [clear_chunk], and the copies of [write_chunk] and [read_chunk],
    start 8 bytes before the end of the boot ROM's part of the window and
    run off the window.  No out-of-bounds error is thrown and the fence is
    never reached.  [chunk_operations_atomic_within_cap] is the claim for
    the lengths up to 2^31. *)
Theorem chunk_operations_fault_on_wrapped_length :
  value_of (is_valid_address 0x2ff8 0xffffffffffffffff default_state)
    = Ok true
  /\ value_of (clear_chunk 0x2ff8 0xffffffffffffffff default_state) = Fault
  /\ value_of (read_chunk 0x2ff8 0xffffffffffffffff default_state) = Fault
  /\ (forall src,
        value_of (write_chunk 0x2ff8 0xffffffffffffffff src default_state)
        = Fault)
  /\ ~ In EvFence
         (trace (state_of (clear_chunk 0x2ff8 0xffffffffffffffff
                                       default_state))).
Proof.
  assert (Hv : valid_at default_state 0x2ff8 0xffffffffffffffff = true)
    by (vm_compute; reflexivity).
  assert (Hw : access_in_window default_state
                 (uio_base default_state + uio_offset_of 0x2ff8)
                 0xffffffffffffffff = false)
    by (vm_compute; reflexivity).
  rewrite is_valid_address_run, clear_chunk_run, read_chunk_run, Hv, Hw.
  unfold value_of, state_of. cbn [fst snd].
  split; [reflexivity |]. split; [reflexivity |]. split; [reflexivity |].
  split.
  - intros src. rewrite write_chunk_run, Hv, Hw. reflexivity.
  - cbn [trace append_event]. intros Hin. apply in_app_or in Hin.
    destruct Hin as [Hin | [Hin | []]]; [| discriminate Hin].
    revert Hin. vm_compute. intuition discriminate.
Qed.

(** X8.  Within the chunk cap, clearing [len] bytes at a valid address and
    reading them back returns [len] zero bytes. *)
Lemma clear_then_read_zero s a len :
  U64.in_range a -> 0 <= len <= 0x80000000 ->
  value_of (is_valid_address a len s) = Ok true ->
  exists s1 s2,
    clear_chunk a len s = (Ok tt, s1)
    /\ read_chunk a len s1 = (Ok (repeat x00 (Z.to_nat len)), s2).
Proof.
  intros Ha Hl Hv. rewrite is_valid_address_run in Hv.
  assert (Hva : valid_at s a len = true).
  { unfold value_of in Hv. cbn [fst] in Hv. congruence. }
  pose proof (valid_at_in_window s a len Ha Hl Hva) as Hin.
  rewrite clear_chunk_run, Hva, Hin.
  eexists. eexists. split; [reflexivity |].
  rewrite read_chunk_run.
  rewrite (valid_at_sizes s _ a len) by reflexivity. rewrite Hva.
  cbn [memory uio_base append_event set_memory].
  rewrite (access_in_window_fields s) by reflexivity. rewrite Hin.
  now rewrite load_fill_bytes.
Qed.

(** X24.  Within the chunk cap, writing [len] bytes at a valid address and
    reading [len] bytes back at the same address returns the bytes
    written. *)
Theorem write_then_read_roundtrip_within_cap s a len src :
  U64.in_range a -> 0 <= len <= 0x80000000 ->
  List.length src = Z.to_nat len ->
  value_of (is_valid_address a len s) = Ok true ->
  exists s1 s2,
    write_chunk a len src s = (Ok tt, s1)
    /\ read_chunk a len s1 = (Ok src, s2).
Proof.
  intros Ha Hl Hsrc Hv. rewrite is_valid_address_run in Hv.
  assert (Hva : valid_at s a len = true).
  { unfold value_of in Hv. cbn [fst] in Hv. congruence. }
  pose proof (valid_at_in_window s a len Ha Hl Hva) as Hin.
  rewrite write_chunk_run, Hva, Hin.
  eexists. eexists. split; [reflexivity |].
  rewrite read_chunk_run.
  rewrite (valid_at_sizes s _ a len) by reflexivity. rewrite Hva.
  cbn [memory uio_base append_event set_memory].
  rewrite (access_in_window_fields s) by reflexivity. rewrite Hin.
  rewrite load_store_bytes; [reflexivity | apply Hl | exact Hsrc].
Qed.

(** Four bytes at the first word of main memory. *)
Lemma write_then_read_roundtrip_within_cap_witness :
  exists s1 s2,
    write_chunk 0x80000000 4 [x01; x02; x03; x04] default_state
      = (Ok tt, s1)
    /\ read_chunk 0x80000000 4 s1 = (Ok [x01; x02; x03; x04], s2).
Proof.
  apply (write_then_read_roundtrip_within_cap default_state 0x80000000 4);
    by_evaluation.
Defined.

(** C6 (the code departs from the claim).  In the default configuration
    [is_valid_address (0xffffffffffffffff, 0x80000001)] answers true: the
    offset, 2^64 - 1 - 2^31, plus the length wraps around [2^64] to 0.  But
    [write_chunk] there, whatever the source buffer, does not return: its
    copy starts far outside the window and faults, so there is nothing to
    read back.  [write_then_read_roundtrip_within_cap] is the claim for the
    lengths up to 2^31. *)
Theorem write_chunk_faults_on_wrapped_access :
  value_of (is_valid_address 0xffffffffffffffff 0x80000001 default_state)
    = Ok true
  /\ forall src,
       value_of (write_chunk 0xffffffffffffffff 0x80000001 src
                             default_state) = Fault.
Proof.
  assert (Hv : valid_at default_state 0xffffffffffffffff 0x80000001 = true)
    by (vm_compute; reflexivity).
  assert (Hw : access_in_window default_state
                 (uio_base default_state + uio_offset_of 0xffffffffffffffff)
                 0x80000001 = false)
    by (vm_compute; reflexivity).
  rewrite is_valid_address_run, Hv.
  split; [reflexivity |].
  intros src. rewrite write_chunk_run, Hv, Hw. reflexivity.
Qed.

(** [reset] is one line printed, then one call of [write_chunk]. *)
Lemma reset_run bo s :
  reset bo s =
  write_chunk ROCKET_CLINT_BASE 4 (bytes_of_uint32 bo 1)
    (append_event
       (EvStderr (MsgTriggerMSIP ROCKET_CLINT_BASE UIO_CLINT_OFFSET)) s).
Proof.
  unfold reset. cbv zeta.
  unfold bind at 1. rewrite rocket_addr_to_uio_offset_run.
  reflexivity.
Qed.

(** The MSIP word is valid exactly when the window reaches past it. *)
Lemma msip_valid s :
  valid_at s ROCKET_CLINT_BASE 4 = (UIO_CLINT_OFFSET + 4 <=? uio_size s).
Proof.
  rewrite valid_at_unfold.
  change (uio_offset_of ROCKET_CLINT_BASE) with UIO_CLINT_OFFSET.
  change (region_of ROCKET_CLINT_BASE) with (Some Clint).
  change (U64.add UIO_CLINT_OFFSET 4) with (UIO_CLINT_OFFSET + 4).
  rewrite Z.gtb_ltb, Z.ltb_antisym.
  destruct (UIO_CLINT_OFFSET + 4 <=? uio_size s); reflexivity.
Qed.

Lemma uint32_bytes_roundtrip_one bo :
  uint32_of_bytes bo (bytes_of_uint32 bo 1) = 1.
Proof. destruct bo; reflexivity. Qed.

(** The MSIP word lies in a window that reaches past it. *)
Lemma msip_in_window s :
  UIO_CLINT_OFFSET + 4 <= uio_size s ->
  access_in_window s (uio_base s + UIO_CLINT_OFFSET) 4 = true.
Proof.
  intros Hsize. unfold access_in_window. apply orb_true_iff. right.
  apply andb_true_iff. split; apply Z.leb_le; unfold_layout; lia.
Qed.

(** [reset] on an object whose window reaches past the MSIP word. *)
Lemma reset_on_large_window bo s :
  UIO_CLINT_OFFSET + 4 <= uio_size s -> reset_triggers_start bo s.
Proof.
  intros Hsize. unfold reset_triggers_start.
  rewrite reset_run, write_chunk_run.
  rewrite (valid_at_sizes s) by reflexivity.
  rewrite msip_valid, (proj2 (Z.leb_le _ _) Hsize).
  change (uio_offset_of ROCKET_CLINT_BASE) with UIO_CLINT_OFFSET.
  cbn [uio_base append_event].
  rewrite (access_in_window_fields s) by reflexivity.
  rewrite (msip_in_window s Hsize).
  eexists. split; [reflexivity |].
  split.
  - unfold added_events. cbn [trace append_event set_memory uio_base].
    rewrite <- !app_assoc. reflexivity.
  - rewrite read_chunk_run.
    rewrite (valid_at_sizes s) by reflexivity.
    rewrite msip_valid, (proj2 (Z.leb_le _ _) Hsize).
    change (uio_offset_of ROCKET_CLINT_BASE) with UIO_CLINT_OFFSET.
    cbn [memory uio_base append_event set_memory].
    rewrite (access_in_window_fields s) by reflexivity.
    rewrite (msip_in_window s Hsize).
    eexists. eexists. split; [reflexivity |].
    rewrite load_store_bytes;
      [apply uint32_bytes_roundtrip_one | lia | destruct bo; reflexivity].
Qed.

(** C7, counterexample.  With a window of 4 KiB ([+uio_size=0x1000]) the
    MSIP word, at window offset 0x3fffe000, is out of bounds: [reset]
    throws, and neither a copy nor a fence took place. *)
Lemma reset_small_window_throws :
  ~ reset_triggers_start LittleEndian small_window_state
  /\ value_of (reset LittleEndian small_window_state)
     = Throw (runtime_error "Write address out of bounds")
  /\ only_printed small_window_state
       (state_of (reset LittleEndian small_window_state)).
Proof.
  assert (Hrun : reset LittleEndian small_window_state =
    (Throw (runtime_error "Write address out of bounds"),
     append_event (EvStderr (MsgWriteOutOfBounds ROCKET_CLINT_BASE 4))
       (append_event
          (EvStderr (MsgTriggerMSIP ROCKET_CLINT_BASE UIO_CLINT_OFFSET))
          small_window_state))).
  { rewrite reset_run, write_chunk_run.
    rewrite (valid_at_sizes small_window_state) by reflexivity.
    rewrite msip_valid. reflexivity. }
  split; [| split].
  - intros (s' & Hreset & _). rewrite Hrun in Hreset. discriminate Hreset.
  - rewrite Hrun. reflexivity.
  - rewrite Hrun. unfold state_of. cbn [snd].
    split; [repeat split; reflexivity |].
    eexists. split; [unfold added_events; cbn [trace append_event];
                     rewrite <- app_assoc; reflexivity |].
    repeat constructor; eexists; reflexivity.
Qed.

(** C7, amended.  [reset] is the one call of [write_chunk] for the 4-byte
    value 1 at 0x2000000, after a line printed.  When the window reaches
    past the MSIP word (0x3fffe004 <= uio_size) it returns, having done
    exactly one copy of those 4 bytes to window offset 0x3fffe000 followed
    by exactly one fence, and the 4 bytes read back are the value 1. *)
Theorem reset_writes_msip_once bo s :
  UIO_CLINT_OFFSET + 4 <= uio_size s ->
  reset bo s =
    write_chunk ROCKET_CLINT_BASE 4 (bytes_of_uint32 bo 1)
      (append_event
         (EvStderr (MsgTriggerMSIP ROCKET_CLINT_BASE UIO_CLINT_OFFSET)) s)
  /\ reset_triggers_start bo s.
Proof.
  intros Hsize. split; [apply reset_run |].
  now apply reset_on_large_window.
Qed.

(** The default window of 1 GiB reaches past the MSIP word. *)
Lemma reset_writes_msip_once_witness :
  reset LittleEndian default_state =
    write_chunk ROCKET_CLINT_BASE 4 (bytes_of_uint32 LittleEndian 1)
      (append_event
         (EvStderr (MsgTriggerMSIP ROCKET_CLINT_BASE UIO_CLINT_OFFSET))
         default_state)
  /\ reset_triggers_start LittleEndian default_state.
Proof.
  apply (reset_writes_msip_once LittleEndian default_state).
  by_evaluation.
Defined.

Example small_window_state_fields :
  uio_size small_window_state = 0x1000
  /\ dram_size small_window_state = 0x3fffc000
  /\ uio_fd small_window_state = 3.
Proof. by_evaluation. Qed.

(** ** Life cycle of the mapping *)

Lemma map_uio_device_mmap_failed_run s dev size fd :
  0 <= fd ->
  map_uio_device dev size fd MAP_FAILED s =
  (Ok false,
   mkState MAP_FAILED (uio_size s) (-1) (dram_size s)
     (remove Z.eq_dec fd (open_fds s)) (mappings s) (memory s)
     (trace s ++ [EvOpen dev fd; EvMmap size fd MAP_FAILED;
                  EvStderr (MsgMapError dev); EvClose fd])).
Proof.
  intros Hfd.
  unfold map_uio_device, sys_open, sys_mmap, sys_close.
  rewrite (proj2 (Z.leb_le 0 fd) Hfd), Z.eqb_refl.
  unfold bind, ret, gets, modify, emit, fprintf_stderr.
  cbn -[MAP_FAILED Z.eqb Z.ltb Z.leb remove].
  rewrite (proj2 (Z.ltb_ge fd 0) Hfd).
  cbn -[MAP_FAILED Z.eqb Z.ltb Z.leb remove].
  rewrite Z.eqb_refl.
  cbn -[MAP_FAILED Z.eqb Z.ltb Z.leb remove].
  project_fields.
  rewrite remove_cons, <- !app_assoc. reflexivity.
Qed.

Lemma map_uio_device_open_failed_run s dev size open_res mmap_res :
  open_res < 0 ->
  map_uio_device dev size open_res mmap_res s =
  (Ok false,
   mkState (uio_base s) (uio_size s) open_res (dram_size s)
     (open_fds s) (mappings s) (memory s)
     (trace s ++ [EvOpen dev open_res; EvStderr (MsgOpenError dev)])).
Proof.
  intros Hfd.
  unfold map_uio_device, sys_open.
  rewrite (proj2 (Z.leb_gt 0 open_res) Hfd).
  unfold bind, ret, gets, modify, emit, fprintf_stderr.
  cbn -[MAP_FAILED Z.eqb Z.ltb Z.leb remove].
  rewrite (proj2 (Z.ltb_lt open_res 0) Hfd).
  project_fields.
  rewrite <- !app_assoc. reflexivity.
Qed.

Lemma map_uio_device_mapped_run s dev size fd base :
  0 <= fd -> base <> MAP_FAILED ->
  map_uio_device dev size fd base s =
  (Ok true,
   mkState base size fd (dram_size s)
     (fd :: open_fds s) ((base, size) :: mappings s) (memory s)
     (trace s ++ [EvOpen dev fd; EvMmap size fd base;
                  EvStderr (MsgMapped dev base size)])).
Proof.
  intros Hfd Hbase.
  unfold map_uio_device, sys_open, sys_mmap.
  rewrite (proj2 (Z.leb_le 0 fd) Hfd), (proj2 (Z.eqb_neq _ _) Hbase).
  unfold bind, ret, gets, modify, emit, fprintf_stderr.
  cbn -[MAP_FAILED Z.eqb Z.ltb Z.leb remove].
  rewrite (proj2 (Z.ltb_ge fd 0) Hfd).
  cbn -[MAP_FAILED Z.eqb Z.ltb Z.leb remove].
  rewrite (proj2 (Z.eqb_neq _ _) Hbase).
  project_fields.
  rewrite <- !app_assoc. reflexivity.
Qed.

(** C8.  When [open] succeeded (it returned a descriptor [fd >= 0]) and
    [mmap] then fails, [map_uio_device] closes [fd] and sets the field
    [uio_fd] to -1 before it returns false: [close] is the last thing it
    does, [fd] is not among the open descriptors any more, every
    descriptor still open was open before the call, and no mapping was
    added. *)
Theorem map_uio_device_closes_on_mmap_failure s uio_device size fd :
  0 <= fd ->
  let r := map_uio_device uio_device size fd MAP_FAILED s in
  value_of r = Ok false
  /\ uio_fd (state_of r) = -1
  /\ added_events s (state_of r)
       [EvOpen uio_device fd; EvMmap size fd MAP_FAILED;
        EvStderr (MsgMapError uio_device); EvClose fd]
  /\ ~ In fd (open_fds (state_of r))
  /\ (forall d, In d (open_fds (state_of r)) -> In d (open_fds s))
  /\ mappings (state_of r) = mappings s
  /\ handle_open (state_of r) = false.
Proof.
  intros Hfd. cbv zeta.
  rewrite (map_uio_device_mmap_failed_run s uio_device size fd Hfd).
  unfold value_of, state_of, added_events, handle_open.
  cbn [fst snd uio_fd open_fds mappings trace].
  repeat split.
  - apply remove_In.
  - intros d Hd. apply (in_remove Z.eq_dec) in Hd. apply Hd.
Qed.

(** A first [open] that returns descriptor 3, then [mmap] fails. *)
Lemma map_uio_device_closes_on_mmap_failure_witness :
  let r := map_uio_device "/dev/uio0" 0x40000000 3 MAP_FAILED fresh_process in
  value_of r = Ok false
  /\ uio_fd (state_of r) = -1
  /\ added_events fresh_process (state_of r)
       [EvOpen "/dev/uio0" 3; EvMmap 0x40000000 3 MAP_FAILED;
        EvStderr (MsgMapError "/dev/uio0"); EvClose 3]
  /\ ~ In 3 (open_fds (state_of r))
  /\ (forall d, In d (open_fds (state_of r)) -> In d (open_fds fresh_process))
  /\ mappings (state_of r) = mappings fresh_process
  /\ handle_open (state_of r) = false.
Proof.
  apply (map_uio_device_closes_on_mmap_failure
           fresh_process "/dev/uio0" 0x40000000 3).
  lia.
Defined.

(** What [unmap_uio] does, by the two tests it makes. *)
Lemma unmap_uio_run s :
  unmap_uio s =
  (Ok tt,
   mkState
     (if mapping_live s then nullptr else uio_base s)
     (uio_size s)
     (if handle_open s then -1 else uio_fd s)
     (dram_size s)
     (if handle_open s
      then remove Z.eq_dec (uio_fd s) (open_fds s) else open_fds s)
     (if mapping_live s
      then filter (fun m => negb (fst m =? uio_base s)) (mappings s)
      else mappings s)
     (memory s)
     (trace s
      ++ (if mapping_live s
          then [EvMunmap (uio_base s) (uio_size s)] else [])
      ++ (if handle_open s then [EvClose (uio_fd s)] else []))).
Proof.
  destruct s as [base size fd dram fds maps mem tr].
  unfold unmap_uio, sys_munmap, sys_close, mapping_live, handle_open.
  step_method.
  destruct (negb (base =? nullptr) && negb (base =? MAP_FAILED));
    step_method;
    destruct (0 <=? fd);
    step_method;
    rewrite <- ?app_assoc, ?app_nil_r; reflexivity.
Qed.

(** C9.  [unmap_uio] returns from any state, and a second call changes
    nothing at all: the state after two calls is the state after one, and
    the second call makes no system call.  The first call unmaps exactly
    when the mapping is live ([uio_base] is neither [nullptr] nor
    [MAP_FAILED]) and closes exactly when the handle is open
    ([uio_fd >= 0]).  On an instance with no live mapping and no open
    handle it does nothing; such is the instance [map_uio_device] leaves
    when it fails on an object whose [uio_base] was [nullptr]. *)
Theorem unmap_uio_idempotent s :
  let s1 := state_of (unmap_uio s) in
  value_of (unmap_uio s) = Ok tt
  /\ unmap_uio s1 = (Ok tt, s1)
  /\ added_events s s1
       ((if mapping_live s
         then [EvMunmap (uio_base s) (uio_size s)] else [])
        ++ (if handle_open s then [EvClose (uio_fd s)] else []))
  /\ (mapping_live s = false -> handle_open s = false -> s1 = s)
  /\ (forall uio_device size open_res mmap_res,
        uio_base s = nullptr ->
        let r := map_uio_device uio_device size open_res mmap_res s in
        value_of r = Ok false ->
        unmap_uio (state_of r) = (Ok tt, state_of r)).
Proof.
  assert (Hidle : forall t,
            mapping_live t = false -> handle_open t = false ->
            unmap_uio t = (Ok tt, t)).
  { intros t Hm Hh. rewrite unmap_uio_run, Hm, Hh.
    cbn [app]. rewrite app_nil_r. destruct t; reflexivity. }
  cbv zeta. rewrite unmap_uio_run.
  unfold value_of, state_of. cbn [fst snd].
  split; [reflexivity |].
  split.
  { apply Hidle.
    - destruct (mapping_live s) eqn:Hm; [reflexivity | exact Hm].
    - destruct (handle_open s) eqn:Hh; [reflexivity | exact Hh]. }
  split; [reflexivity |].
  split.
  { intros Hm Hh. rewrite Hm, Hh. cbn [app]. rewrite app_nil_r.
    destruct s; reflexivity. }
  intros dev size open_res mmap_res Hnull Hfalse.
  destruct (Z_lt_le_dec open_res 0) as [Hneg | Hpos].
  - rewrite (map_uio_device_open_failed_run s dev size _ _ Hneg) in *.
    cbn [snd]. apply Hidle.
    + unfold mapping_live. cbn [uio_base]. rewrite Hnull. reflexivity.
    + unfold handle_open. cbn [uio_fd]. now apply Z.leb_gt.
  - destruct (Z.eq_dec mmap_res MAP_FAILED) as [-> | Hbase].
    + rewrite (map_uio_device_mmap_failed_run s dev size _ Hpos).
      cbn [snd]. apply Hidle; reflexivity.
    + rewrite (map_uio_device_mapped_run s dev size _ _ Hpos Hbase) in Hfalse.
      discriminate Hfalse.
Qed.

(** The instance left by a failed [mmap], and the default instance. *)
Lemma unmap_uio_idempotent_witness :
  let failed :=
    state_of (map_uio_device "/dev/uio0" 0x40000000 3 MAP_FAILED
                             fresh_process) in
  state_of (unmap_uio failed) = failed
  /\ unmap_uio (state_of (unmap_uio default_state))
     = (Ok tt, state_of (unmap_uio default_state))
  /\ unmap_uio failed = (Ok tt, failed).
Proof.
  cbv zeta.
  destruct (unmap_uio_idempotent
              (state_of (map_uio_device "/dev/uio0" 0x40000000 3 MAP_FAILED
                                        fresh_process)))
    as (_ & _ & _ & Hidle & _).
  destruct (unmap_uio_idempotent default_state) as (_ & Htwice & _).
  destruct (unmap_uio_idempotent fresh_process) as (_ & _ & _ & _ & Hfail).
  split; [apply Hidle; reflexivity |].
  split; [exact Htwice |].
  apply (Hfail "/dev/uio0"%string 0x40000000 3 MAP_FAILED); reflexivity.
Defined.

(** * Further properties of the code *)

(** ** Validation within the chunk cap *)

Lemma chunk_max_size_small : chunk_max_size <= 0x80000000.
Proof. discriminate. Qed.

(** X1.  Within the chunk cap, and up to 2^31 bytes, [is_valid_address]
    is exact: it answers true if and only if the address translates to a
    region, the offset plus the length fits the window and the address plus
    the length stays within the region, all in exact arithmetic. *)
Theorem is_valid_address_exact_within_cap s a len :
  U64.in_range a -> 0 <= len <= 0x80000000 -> sizes_in_range s ->
  (value_of (is_valid_address a len s) = Ok true <-> fits_exactly s a len).
Proof.
  intros Ha Hl Hs. rewrite is_valid_address_run.
  unfold value_of. cbn [fst].
  assert (Hlr : U64.in_range len).
  { unfold U64.in_range. rewrite U64Facts.modulus_eq. lia. }
  split.
  - intros H. apply valid_at_sound_capped; [assumption | assumption |].
    congruence.
  - intros (r & Hr & Hwin & Hend).
    now rewrite (valid_at_complete s a len r).
Qed.

(** A full chunk at the start of main memory, default configuration. *)
Lemma is_valid_address_exact_within_cap_witness :
  value_of (is_valid_address 0x80000000 chunk_max_size default_state)
    = Ok true
  <-> fits_exactly default_state 0x80000000 chunk_max_size.
Proof.
  apply (is_valid_address_exact_within_cap default_state 0x80000000
           chunk_max_size); by_evaluation.
Defined.

(** Cutting an access that fits. *)
Lemma valid_at_splits s a len k :
  U64.in_range a -> 0 <= len <= 0x80000000 -> sizes_in_range s ->
  0 <= k < len -> a + k < U64.modulus ->
  valid_at s a len = true ->
  valid_at s a k = true /\ valid_at s (a + k) (len - k) = true.
Proof.
  intros Ha Hl Hs Hk Hak Hva.
  apply (valid_at_exact s a len Ha Hl Hs) in Hva.
  destruct Hva as (r & Hr & Hwin & Hend).
  pose proof (region_of_spec a) as Hsa. rewrite Hr in Hsa.
  split.
  - apply (valid_at_exact s a k Ha); [lia | assumption |].
    exists r. repeat split; [assumption | lia | lia].
  - assert (Hak' : U64.in_range (a + k)).
    { unfold U64.in_range in *. lia. }
    apply (valid_at_exact s (a + k) (len - k) Hak'); [lia | assumption |].
    exists r.
    assert (Hr' : region_of (a + k) = Some r).
    { pose proof (region_of_spec (a + k)) as Hsk.
      destruct r; cbn [region_end] in Hend;
        destruct (region_of (a + k)) as [[| |] |]; unfold_layout;
        try reflexivity; lia. }
    repeat split; [assumption | lia | lia].
Qed.

(** X2.  An accepted access of at most 2^31 bytes can be cut anywhere: the
    first [k] bytes and the remaining [len - k] bytes, at [a + k], are both
    accepted. *)
Theorem valid_access_splits s a len k :
  U64.in_range a -> 0 <= len <= 0x80000000 -> sizes_in_range s ->
  0 <= k < len -> a + k < U64.modulus ->
  value_of (is_valid_address a len s) = Ok true ->
  value_of (is_valid_address a k s) = Ok true
  /\ value_of (is_valid_address (a + k) (len - k) s) = Ok true.
Proof.
  intros Ha Hl Hs Hk Hak Hv.
  rewrite !is_valid_address_run in *. unfold value_of in *. cbn [fst] in *.
  assert (Hva : valid_at s a len = true) by congruence.
  destruct (valid_at_splits s a len k Ha Hl Hs Hk Hak Hva) as [-> ->].
  split; reflexivity.
Qed.

(** A chunk of 1 MiB cut after 4 KiB. *)
Lemma valid_access_splits_witness :
  value_of (is_valid_address 0x80000000 0x1000 default_state) = Ok true
  /\ value_of (is_valid_address (0x80000000 + 0x1000) (0x100000 - 0x1000)
                               default_state) = Ok true.
Proof.
  apply (valid_access_splits default_state 0x80000000 0x100000 0x1000);
    by_evaluation.
Defined.

(** ** The bytes the chunk operations touch *)

Lemma load_bytes_ext m1 m2 p len :
  (forall i, 0 <= i < len -> m1 (p + i) = m2 (p + i)) ->
  load_bytes m1 p len = load_bytes m2 p len.
Proof.
  intros H. unfold load_bytes. apply map_ext_in.
  intros i Hi. apply in_seq in Hi. apply H. lia.
Qed.



(** A store does not show in a load of bytes it did not reach. *)
Lemma load_store_disjoint m p len src q len' :
  len <= 0 \/ len' <= 0 \/ p + len <= q \/ q + len' <= p ->
  load_bytes (store_bytes m p len src) q len' = load_bytes m q len'.
Proof.
  intros H. apply load_bytes_ext. intros i Hi. unfold store_bytes.
  destruct (Z.leb_spec p (q + i)), (Z.ltb_spec (q + i) (p + len));
    cbn [andb]; try reflexivity; lia.
Qed.


(** The three operations and [reset], by the answer of the check. *)
Lemma write_chunk_memory s a len src :
  memory (state_of (write_chunk a len src s)) =
  if valid_at s a len
     && access_in_window s (uio_base s + uio_offset_of a) len
  then store_bytes (memory s) (uio_base s + uio_offset_of a) len src
  else memory s.
Proof.
  rewrite write_chunk_run. destruct (valid_at s a len); cbn [andb].
  - destruct (access_in_window s (uio_base s + uio_offset_of a) len);
      reflexivity.
  - unfold state_of. cbn [snd append_event memory].
    apply (warned_fields a s).
Qed.

Lemma clear_chunk_memory s a len :
  memory (state_of (clear_chunk a len s)) =
  if valid_at s a len
     && access_in_window s (uio_base s + uio_offset_of a) len
  then fill_bytes (memory s) (uio_base s + uio_offset_of a) x00 len
  else memory s.
Proof.
  rewrite clear_chunk_run. destruct (valid_at s a len); cbn [andb].
  - destruct (access_in_window s (uio_base s + uio_offset_of a) len);
      reflexivity.
  - unfold state_of. cbn [snd append_event memory].
    apply (warned_fields a s).
Qed.

Lemma same_resources_refl s : same_resources s s.
Proof. repeat split. Qed.

Lemma same_resources_warned a s : same_resources s (warned a s).
Proof.
  destruct (warned_fields a s) as (H1 & H2 & H3 & H4 & H5 & H6 & _).
  repeat split; assumption.
Qed.

(** X3.  The chunk operations and [reset] are stateless with respect to the
    object: whether they return or throw, the four fields, the open
    descriptors and the live mappings are what they were. *)
Theorem chunk_operations_keep_resources s a len src bo :
  same_resources s (state_of (read_chunk a len s))
  /\ same_resources s (state_of (write_chunk a len src s))
  /\ same_resources s (state_of (clear_chunk a len s))
  /\ same_resources s (state_of (reset bo s)).
Proof.
  assert (Hw : forall t b l bs,
            same_resources t (state_of (write_chunk b l bs t))).
  { intros t b l bs. rewrite write_chunk_run.
    destruct (valid_at t b l); unfold state_of; cbn [snd].
    - destruct (access_in_window t (uio_base t + uio_offset_of b) l);
        repeat split.
    - destruct (same_resources_warned b t) as (H1 & H2 & H3 & H4 & H5 & H6).
      repeat split; assumption. }
  split; [| split; [apply Hw | split]].
  - rewrite read_chunk_run.
    destruct (valid_at s a len); unfold state_of; cbn [snd].
    + destruct (access_in_window s (uio_base s + uio_offset_of a) len);
        repeat split.
    + destruct (same_resources_warned a s) as (H1 & H2 & H3 & H4 & H5 & H6).
      repeat split; assumption.
  - rewrite clear_chunk_run.
    destruct (valid_at s a len); unfold state_of; cbn [snd].
    + destruct (access_in_window s (uio_base s + uio_offset_of a) len);
        repeat split.
    + destruct (same_resources_warned a s) as (H1 & H2 & H3 & H4 & H5 & H6).
      repeat split; assumption.
  - rewrite reset_run.
    destruct (Hw (append_event
                    (EvStderr (MsgTriggerMSIP ROCKET_CLINT_BASE
                                              UIO_CLINT_OFFSET)) s)
                 ROCKET_CLINT_BASE 4 (bytes_of_uint32 bo 1))
      as (H1 & H2 & H3 & H4 & H5 & H6).
    repeat split; assumption.
Qed.

(** X4.  Within the chunk cap the operations stay inside the window: the
    bytes an accepted access touches all belong to the mapping, and
    [write_chunk] and [clear_chunk], accepted or not, leave every byte
    outside the mapping as it was. *)
Theorem chunk_operations_stay_in_window s a len src :
  U64.in_range a -> 0 <= len <= 0x80000000 -> sizes_in_range s ->
  (value_of (is_valid_address a len s) = Ok true ->
   forall q, touched s a len q -> in_window s q)
  /\ (forall q, ~ in_window s q ->
        memory (state_of (write_chunk a len src s)) q = memory s q
        /\ memory (state_of (clear_chunk a len s)) q = memory s q).
Proof.
  intros Ha Hl Hs.
  assert (Hin : valid_at s a len = true ->
                forall q, touched s a len q -> in_window s q).
  { intros Hv q Hq. apply (valid_at_exact s a len Ha Hl Hs) in Hv.
    destruct (fits_exactly_offset s a len Ha Hv) as [H0 H1].
    unfold touched, in_window in *. lia. }
  split.
  - rewrite is_valid_address_run. unfold value_of. cbn [fst].
    intros Hv. apply Hin. congruence.
  - intros q Hq. rewrite write_chunk_memory, clear_chunk_memory.
    destruct (valid_at s a len) eqn:Hv; [| split; reflexivity].
    cbn [andb].
    destruct (access_in_window s (uio_base s + uio_offset_of a) len);
      [| split; reflexivity].
    assert (Hnt : ~ touched s a len q) by (intros Ht; apply Hq, Hin; auto).
    unfold touched in Hnt. unfold store_bytes, fill_bytes.
    destruct (Z.leb_spec (uio_base s + uio_offset_of a) q),
             (Z.ltb_spec q (uio_base s + uio_offset_of a + len));
      cbn [andb]; try (split; reflexivity); lia.
Qed.

(** A chunk in main memory and an address below the window. *)
Lemma chunk_operations_stay_in_window_witness :
  (forall q, touched default_state 0x80000000 8 q ->
             in_window default_state q)
  /\ memory (state_of (write_chunk 0x80000000 8
                         [x01; x02; x03; x04; x05; x06; x07; x08]
                         default_state)) 0x1000
     = memory default_state 0x1000.
Proof.
  assert (Hout : ~ in_window default_state 0x1000).
  { unfold in_window.
    destruct default_state_fields as (-> & -> & _). lia. }
  destruct (chunk_operations_stay_in_window default_state 0x80000000 8
              [x01; x02; x03; x04; x05; x06; x07; x08])
    as [Hin Hmem]; [by_evaluation | by_evaluation | by_evaluation |].
  split.
  - apply Hin. by_evaluation.
  - exact (proj1 (Hmem 0x1000 Hout)).
Defined.

(** ** How accesses compose *)





(** X7.  Within the chunk cap [clear_chunk] is [write_chunk] of [len] zero
    bytes: both return, or both throw their out-of-bounds error, and they
    leave the same bytes in memory. *)
Theorem clear_chunk_is_write_of_zeros s a len :
  U64.in_range a -> 0 <= len <= 0x80000000 ->
  let cl := clear_chunk a len s in
  let wr := write_chunk a len (repeat x00 (Z.to_nat len)) s in
  ((value_of cl = Ok tt /\ value_of wr = Ok tt)
   \/ (value_of cl = Throw (runtime_error "Clear address out of bounds")
       /\ value_of wr = Throw (runtime_error "Write address out of bounds")))
  /\ forall q, memory (state_of cl) q = memory (state_of wr) q.
Proof.
  intros Ha Hl. cbv zeta.
  rewrite clear_chunk_memory, write_chunk_memory.
  rewrite clear_chunk_run, write_chunk_run.
  destruct (valid_at s a len) eqn:Hv; unfold value_of; cbn [fst andb].
  - rewrite (valid_at_in_window s a len Ha Hl Hv). cbn [fst].
    split; [left; split; reflexivity |].
    intros q. unfold fill_bytes, store_bytes.
    destruct ((uio_base s + uio_offset_of a <=? q)
              && (q <? uio_base s + uio_offset_of a + len));
      [| reflexivity].
    symmetry. apply nth_repeat.
  - split; [right; split; reflexivity | reflexivity].
Qed.

(** The eight bytes written before: the first one is 1 before the clear. *)
Lemma clear_chunk_is_write_of_zeros_witness :
  memory written_state (uio_base written_state
                        + uio_offset_of 0x80000000) = x01
  /\ let cl := clear_chunk 0x80000000 8 written_state in
     let wr := write_chunk 0x80000000 8 (repeat x00 (Z.to_nat 8))
                           written_state in
     ((value_of cl = Ok tt /\ value_of wr = Ok tt)
      \/ (value_of cl = Throw (runtime_error "Clear address out of bounds")
          /\ value_of wr
             = Throw (runtime_error "Write address out of bounds")))
     /\ forall q, memory (state_of cl) q = memory (state_of wr) q.
Proof.
  split; [vm_compute; reflexivity |].
  apply (clear_chunk_is_write_of_zeros written_state 0x80000000 8);
    by_evaluation.
Defined.

(** The eight bytes written before: they read 1 to 8 before the clear. *)
Lemma clear_then_read_zero_witness :
  value_of (read_chunk 0x80000000 8 written_state)
    = Ok [x01; x02; x03; x04; x05; x06; x07; x08]
  /\ exists s1 s2,
       clear_chunk 0x80000000 8 written_state = (Ok tt, s1)
       /\ read_chunk 0x80000000 8 s1
          = (Ok (repeat x00 (Z.to_nat 8)), s2).
Proof.
  split; [vm_compute; reflexivity |].
  apply (clear_then_read_zero written_state 0x80000000 8);
    by_evaluation.
Defined.

(** ** Regions and the window *)

(** With main memory no larger than the offset of the boot ROM, accesses
    that fit and are apart in the Rocket address space are apart in the
    window. *)
Lemma disjoint_accesses_disjoint_offsets s a la b lb :
  U64.in_range a -> U64.in_range b -> U64.in_range (dram_size s) ->
  dram_size s <= UIO_BOOTROM_OFFSET ->
  0 < la -> 0 < lb ->
  fits_exactly s a la -> fits_exactly s b lb ->
  a + la <= b \/ b + lb <= a ->
  uio_offset_of a + la <= uio_offset_of b
  \/ uio_offset_of b + lb <= uio_offset_of a.
Proof.
  intros Ha Hb Hd Hdram Hla Hlb (ra & Hra & _ & Hea) (rb & Hrb & _ & Heb)
    Hapart.
  rewrite (uio_offset_of_exact a ra Ha Hra).
  rewrite (uio_offset_of_exact b rb Hb Hrb).
  pose proof (region_of_spec a) as Hsa. rewrite Hra in Hsa.
  pose proof (region_of_spec b) as Hsb. rewrite Hrb in Hsb.
  unfold U64.in_range in *.
  destruct ra, rb;
    cbn [region_window_offset region_base region_end] in *;
    unfold_layout; lia.
Qed.

(** X9.  With main memory no larger than 0x3fffc000 (the default), a write
    does not disturb what is read elsewhere: for two accepted accesses that
    do not overlap in the Rocket address space, [read_chunk] of the one
    returns the same bytes after [write_chunk] of the other as before. *)
Theorem write_keeps_disjoint_read s a la src b lb :
  U64.in_range a -> U64.in_range b ->
  0 <= la <= 0x80000000 -> 0 <= lb <= 0x80000000 ->
  sizes_in_range s -> dram_size s <= UIO_BOOTROM_OFFSET ->
  value_of (is_valid_address a la s) = Ok true ->
  value_of (is_valid_address b lb s) = Ok true ->
  a + la <= b \/ b + lb <= a ->
  value_of (read_chunk b lb (state_of (write_chunk a la src s)))
  = value_of (read_chunk b lb s).
Proof.
  intros Ha Hb Hla Hlb Hs Hdram Hva Hvb Hapart.
  rewrite !is_valid_address_run in *. unfold value_of in *. cbn [fst] in *.
  assert (Hva' : valid_at s a la = true) by congruence.
  assert (Hvb' : valid_at s b lb = true) by congruence.
  pose proof (proj1 (valid_at_exact s a la Ha Hla Hs) Hva') as Hfa.
  pose proof (proj1 (valid_at_exact s b lb Hb Hlb Hs) Hvb') as Hfb.
  pose proof (valid_at_in_window s a la Ha Hla Hva') as Hina.
  pose proof (valid_at_in_window s b lb Hb Hlb Hvb') as Hinb.
  rewrite write_chunk_run, Hva', Hina. unfold state_of. cbn [snd].
  rewrite !read_chunk_run.
  rewrite (valid_at_sizes s _ b lb) by reflexivity. rewrite Hvb'.
  cbn [memory uio_base append_event set_memory].
  rewrite (access_in_window_fields s) by reflexivity. rewrite Hinb.
  cbn [fst]. f_equal.
  apply load_store_disjoint.
  destruct (Z.eq_dec la 0) as [-> | Hla0]; [left; lia |].
  destruct (Z.eq_dec lb 0) as [-> | Hlb0]; [right; left; lia |].
  right. right.
  destruct (disjoint_accesses_disjoint_offsets s a la b lb Ha Hb (proj2 Hs)
              Hdram ltac:(lia) ltac:(lia) Hfa Hfb Hapart); lia.
Qed.

(** A write to the boot ROM and a read of the first word of main memory. *)
Lemma write_keeps_disjoint_read_witness :
  value_of (read_chunk 0x80000000 4
              (state_of (write_chunk 0x1000 4 [x01; x02; x03; x04]
                                     default_state)))
  = value_of (read_chunk 0x80000000 4 default_state).
Proof.
  apply (write_keeps_disjoint_read default_state 0x1000 4
           [x01; x02; x03; x04] 0x80000000 4);
    try by_evaluation.
  left. by_evaluation.
Defined.

(** X10.  When main memory is larger than 0x3fffc000 its end shares the
    bytes of the window with the boot ROM: a byte written at boot-ROM
    address [0x1000 + k] is the byte read at main-memory address
    [0x80000000 + 0x3fffc000 + k]. *)
Theorem large_dram_aliases_boot_rom s k v :
  0 <= k < 0x2000 ->
  UIO_BOOTROM_OFFSET + k < dram_size s ->
  UIO_BOOTROM_OFFSET + k < uio_size s ->
  sizes_in_range s ->
  let s1 := state_of (write_chunk (ROCKET_BOOTROM_BASE + k) 1 [v] s) in
  value_of (write_chunk (ROCKET_BOOTROM_BASE + k) 1 [v] s) = Ok tt
  /\ value_of (read_chunk (ROCKET_DRAM_BASE + UIO_BOOTROM_OFFSET + k) 1 s1)
     = Ok [v].
Proof.
  intros Hk Hdram Hwin Hs. cbv zeta.
  set (a := ROCKET_BOOTROM_BASE + k).
  set (b := ROCKET_DRAM_BASE + UIO_BOOTROM_OFFSET + k).
  assert (Ha : U64.in_range a).
  { unfold U64.in_range. rewrite U64Facts.modulus_eq.
    subst a. unfold_layout. lia. }
  assert (Hb : U64.in_range b).
  { unfold U64.in_range. rewrite U64Facts.modulus_eq.
    subst b. unfold_layout. lia. }
  assert (H1 : U64.in_range 1) by (split; [lia | reflexivity]).
  assert (Hra : region_of a = Some BootRom).
  { pose proof (region_of_spec a) as Hsa.
    destruct (region_of a) as [[| |] |]; subst a; unfold_layout;
      try reflexivity; lia. }
  assert (Hrb : region_of b = Some Dram).
  { pose proof (region_of_spec b) as Hsb.
    destruct (region_of b) as [[| |] |]; subst b; unfold_layout;
      try reflexivity; lia. }
  assert (Hva : valid_at s a 1 = true).
  { apply (valid_at_complete s a 1 BootRom Ha H1 Hs Hra);
      cbn [region_window_offset region_base region_end];
      subst a; unfold_layout; lia. }
  assert (Hvb : valid_at s b 1 = true).
  { apply (valid_at_complete s b 1 Dram Hb H1 Hs Hrb);
      cbn [region_window_offset region_base region_end];
      subst b; unfold_layout; lia. }
  assert (Hoff : uio_offset_of b = uio_offset_of a).
  { rewrite (uio_offset_of_exact a BootRom Ha Hra).
    rewrite (uio_offset_of_exact b Dram Hb Hrb).
    cbn [region_window_offset region_base]. subst a b. unfold_layout. lia. }
  assert (Hina : access_in_window s (uio_base s + uio_offset_of a) 1 = true).
  { apply (fits_exactly_in_window s a 1 Ha); [lia |].
    exists BootRom. split; [exact Hra |].
    cbn [region_window_offset region_base region_end].
    subst a. unfold_layout. lia. }
  rewrite write_chunk_run, Hva, Hina.
  unfold value_of, state_of. cbn [fst snd].
  split; [reflexivity |].
  rewrite read_chunk_run.
  rewrite (valid_at_sizes s _ b 1) by reflexivity. rewrite Hvb.
  cbn [memory uio_base append_event set_memory].
  rewrite Hoff.
  rewrite (access_in_window_fields s) by reflexivity. rewrite Hina.
  cbn [fst].
  rewrite load_store_bytes; [reflexivity | lia | reflexivity].
Qed.

(** X11.  With a window of at most 1 GiB (the default size) nothing of the
    interrupt-control block from its offset 0x2000 on can be accessed,
    although the region is 64 KiB long: the block starts 8 KiB before the
    end of a window of 1 GiB. *)
Theorem clint_beyond_window_refused s a len :
  U64.in_range a -> 0 < len <= 0x80000000 -> sizes_in_range s ->
  uio_size s <= 0x40000000 ->
  ROCKET_CLINT_BASE + 0x2000 <= a < ROCKET_CLINT_BASE + 0x10000 ->
  value_of (is_valid_address a len s) = Ok false.
Proof.
  intros Ha Hl Hs Hsize Hin.
  rewrite is_valid_address_run. unfold value_of. cbn [fst]. f_equal.
  destruct (valid_at s a len) eqn:Hv; [exfalso | reflexivity].
  apply (valid_at_exact s a len Ha) in Hv; [| lia | assumption].
  destruct Hv as (r & Hr & Hwin & _).
  pose proof (region_of_spec a) as Hsa. rewrite Hr in Hsa.
  destruct r; cbn [region_window_offset region_base] in Hwin;
    unfold_layout; lia.
Qed.

(** The [mtime] register, at offset 0xbff8 of the block. *)
Lemma clint_beyond_window_refused_witness :
  value_of (is_valid_address 0x200bff8 8 default_state) = Ok false.
Proof.
  apply (clint_beyond_window_refused default_state 0x200bff8 8);
    by_evaluation.
Defined.

Lemma large_dram_aliases_boot_rom_witness :
  let s1 := state_of (write_chunk (ROCKET_BOOTROM_BASE + 5) 1 [x2a]
                                  large_dram_state) in
  value_of (write_chunk (ROCKET_BOOTROM_BASE + 5) 1 [x2a] large_dram_state)
    = Ok tt
  /\ value_of (read_chunk (ROCKET_DRAM_BASE + UIO_BOOTROM_OFFSET + 5) 1 s1)
     = Ok [x2a].
Proof.
  apply (large_dram_aliases_boot_rom large_dram_state 5 x2a);
    by_evaluation.
Defined.

(** ** Construction and destruction *)

(** The constructor, by what [open] and [mmap] answer. *)
Lemma uio_htif_t_new_run args open_res mmap_res s :
  uio_htif_t_new args open_res mmap_res s =
  if (arg_uio args =? "")%string then
    (Throw (invalid_argument "Must specify +uio=/dev/uioX"),
     prepared args s)
  else
    match map_uio_device (arg_uio args) (chosen_total_size args)
                         open_res mmap_res (prepared args s) with
    | (Ok true, s1) =>
        (Ok tt,
         append_event (EvStderr MsgMemoryMapClint)
           (append_event (EvStderr MsgMemoryMapBootRom)
              (append_event (EvStderr (MsgMemoryMapDram (dram_size s1)))
                 (append_event (EvStderr MsgMemoryMapHeader) s1))))
    | (Ok false, s1) =>
        (Throw (runtime_error "Failed to map UIO device"), s1)
    | (Throw e, s1) => (Throw e, s1)
    | (Fault, s1) => (Fault, s1)
    end.
Proof.
  destruct s as [base size fd dram fds maps mem tr].
  destruct args as [dev usize [d |]];
    unfold uio_htif_t_new, parse_uio_args, prepared, chosen_total_size,
      chosen_dram_size, default_lines;
    cbn [arg_uio arg_uio_size arg_dram_size].
  - step_method.
    destruct (usize =? 0); step_method; destruct (d =? 0); step_method;
      destruct (dev =? "")%string; step_method;
      rewrite <- ?app_assoc; cbn [app]; rewrite ?app_nil_r;
      try reflexivity;
      match goal with
      | |- context [map_uio_device ?a ?b ?c ?e ?t] =>
          destruct (map_uio_device a b c e t) as [[[|] | err |] s1]
      end; reflexivity.
  - step_method.
    destruct (usize =? 0); step_method;
      change (0 =? 0) with true; step_method;
      destruct (dev =? "")%string; step_method;
      rewrite <- ?app_assoc; cbn [app]; rewrite ?app_nil_r;
      try reflexivity;
      match goal with
      | |- context [map_uio_device ?a ?b ?c ?e ?t] =>
          destruct (map_uio_device a b c e t) as [[[|] | err |] s1]
      end; reflexivity.
Qed.

Lemma map_uio_device_cases s dev size open_res mmap_res :
  (open_res < 0
   /\ map_uio_device dev size open_res mmap_res s =
      (Ok false,
       mkState (uio_base s) (uio_size s) open_res (dram_size s)
         (open_fds s) (mappings s) (memory s)
         (trace s ++ [EvOpen dev open_res; EvStderr (MsgOpenError dev)])))
  \/ (0 <= open_res /\ mmap_res = MAP_FAILED
      /\ map_uio_device dev size open_res mmap_res s =
         (Ok false,
          mkState MAP_FAILED (uio_size s) (-1) (dram_size s)
            (remove Z.eq_dec open_res (open_fds s)) (mappings s) (memory s)
            (trace s ++ [EvOpen dev open_res;
                         EvMmap size open_res MAP_FAILED;
                         EvStderr (MsgMapError dev); EvClose open_res])))
  \/ (0 <= open_res /\ mmap_res <> MAP_FAILED
      /\ map_uio_device dev size open_res mmap_res s =
         (Ok true,
          mkState mmap_res size open_res (dram_size s)
            (open_res :: open_fds s) ((mmap_res, size) :: mappings s)
            (memory s)
            (trace s ++ [EvOpen dev open_res; EvMmap size open_res mmap_res;
                         EvStderr (MsgMapped dev mmap_res size)]))).
Proof.
  destruct (Z_lt_le_dec open_res 0) as [Hneg | Hpos].
  - left. split; [assumption |].
    now apply map_uio_device_open_failed_run.
  - destruct (Z.eq_dec mmap_res MAP_FAILED) as [-> | Hbase].
    + right. left. split; [assumption |]. split; [reflexivity |].
      now apply map_uio_device_mmap_failed_run.
    + right. right. split; [assumption |]. split; [assumption |].
      now apply map_uio_device_mapped_run.
Qed.

(** X12.  [map_uio_device] returns true exactly when [open] returned a
    descriptor and [mmap] did not fail; the object then holds the
    descriptor, the base and the size of the mapping.  When [open] fails
    neither [mmap] nor [close] is called and [uio_base] and [uio_size] are
    left as they were. *)
Theorem map_uio_device_outcome s uio_device size open_res mmap_res :
  let r := map_uio_device uio_device size open_res mmap_res s in
  (value_of r = Ok true <-> 0 <= open_res /\ mmap_res <> MAP_FAILED)
  /\ (value_of r = Ok true ->
      uio_fd (state_of r) = open_res
      /\ uio_base (state_of r) = mmap_res
      /\ uio_size (state_of r) = size
      /\ open_fds (state_of r) = open_res :: open_fds s
      /\ mappings (state_of r) = (mmap_res, size) :: mappings s)
  /\ (open_res < 0 ->
      value_of r = Ok false
      /\ added_events s (state_of r)
           [EvOpen uio_device open_res; EvStderr (MsgOpenError uio_device)]
      /\ uio_base (state_of r) = uio_base s
      /\ uio_size (state_of r) = uio_size s
      /\ open_fds (state_of r) = open_fds s
      /\ mappings (state_of r) = mappings s
      /\ handle_open (state_of r) = false).
Proof.
  cbv zeta.
  destruct (map_uio_device_cases s uio_device size open_res mmap_res)
    as [[Ho ->] | [(Ho & Hm & ->) | (Ho & Hm & ->)]];
    unfold value_of, state_of, added_events, handle_open;
    cbn [fst snd uio_fd uio_base uio_size open_fds mappings trace].
  - split; [split; [discriminate | lia] |].
    split; [discriminate |]. intros _.
    repeat split. now apply Z.leb_gt.
  - split; [split; [discriminate | tauto] |].
    split; [discriminate | lia].
  - split; [split; [auto | reflexivity] |].
    split; [intros _; repeat split | lia].
Qed.

Lemma map_uio_device_outcome_witness :
  let r := map_uio_device "/dev/uio0" 0x1000 (-1) 0 fresh_process in
  value_of r = Ok false
  /\ added_events fresh_process (state_of r)
       [EvOpen "/dev/uio0" (-1); EvStderr (MsgOpenError "/dev/uio0")]
  /\ uio_base (state_of r) = uio_base fresh_process
  /\ uio_size (state_of r) = uio_size fresh_process
  /\ open_fds (state_of r) = open_fds fresh_process
  /\ mappings (state_of r) = mappings fresh_process
  /\ handle_open (state_of r) = false.
Proof.
  apply (map_uio_device_outcome fresh_process "/dev/uio0" 0x1000 (-1) 0).
  lia.
Defined.

(** After [unmap_uio] the object holds nothing, and a further call does
    nothing. *)
Lemma unmap_uio_releases s :
  mapping_live (state_of (unmap_uio s)) = false
  /\ handle_open (state_of (unmap_uio s)) = false.
Proof.
  rewrite unmap_uio_run. unfold state_of. cbn [snd]. split.
  - destruct (mapping_live s) eqn:Hm; [reflexivity | exact Hm].
  - destruct (handle_open s) eqn:Hh; [reflexivity | exact Hh].
Qed.

Lemma unmap_uio_idle s :
  mapping_live s = false -> handle_open s = false ->
  unmap_uio s = (Ok tt, s).
Proof.
  intros Hm Hh. rewrite unmap_uio_run, Hm, Hh.
  cbn [app]. rewrite app_nil_r. destruct s; reflexivity.
Qed.

(** [unmap_uio] releases nothing but what the fields name. *)
Lemma unmap_uio_keeps_others s :
  (forall d, d <> uio_fd s -> In d (open_fds s) ->
             In d (open_fds (state_of (unmap_uio s))))
  /\ (forall m, fst m <> uio_base s -> In m (mappings s) ->
                In m (mappings (state_of (unmap_uio s)))).
Proof.
  rewrite unmap_uio_run. unfold state_of. cbn [snd open_fds mappings].
  split.
  - intros d Hd Hin. destruct (handle_open s); [| exact Hin].
    apply in_in_remove; assumption.
  - intros m Hm Hin. destruct (mapping_live s); [| exact Hin].
    apply filter_In. split; [exact Hin |].
    apply negb_true_iff. now apply Z.eqb_neq.
Qed.

(** X13.  [map_uio_device] does not release what the object already holds:
    after two successful calls and [unmap_uio], the descriptor and the
    mapping of the first call are still open and live, and the object has
    forgotten them. *)
Theorem map_uio_device_twice_leaks s dev1 size1 fd1 base1
        dev2 size2 fd2 base2 :
  0 <= fd1 -> 0 <= fd2 -> fd1 <> fd2 ->
  base1 <> MAP_FAILED -> base2 <> MAP_FAILED -> base1 <> base2 ->
  let s1 := state_of (map_uio_device dev1 size1 fd1 base1 s) in
  let s2 := state_of (map_uio_device dev2 size2 fd2 base2 s1) in
  let s3 := state_of (unmap_uio s2) in
  In fd1 (open_fds s3) /\ In (base1, size1) (mappings s3)
  /\ handle_open s3 = false /\ mapping_live s3 = false
  /\ unmap_uio s3 = (Ok tt, s3).
Proof.
  intros Hfd1 Hfd2 Hfd Hb1 Hb2 Hb. cbv zeta.
  rewrite (map_uio_device_mapped_run s dev1 size1 fd1 base1 Hfd1 Hb1).
  unfold state_of at 2. cbn [snd].
  rewrite (map_uio_device_mapped_run _ dev2 size2 fd2 base2 Hfd2 Hb2).
  unfold state_of at 2.
  cbn [snd uio_base uio_size uio_fd dram_size open_fds mappings memory
       trace].
  match goal with
  | |- context [unmap_uio ?t] => set (s2 := t)
  end.
  destruct (unmap_uio_keeps_others s2) as [Hfds Hmaps].
  destruct (unmap_uio_releases s2) as [Hlive Hopen].
  split; [| split; [| split; [exact Hopen | split; [exact Hlive |]]]].
  - apply Hfds; subst s2; cbn [uio_fd open_fds];
      [assumption | right; left; reflexivity].
  - apply Hmaps; subst s2; cbn [uio_base mappings fst];
      [assumption | right; left; reflexivity].
  - now apply unmap_uio_idle.
Qed.

Lemma map_uio_device_twice_leaks_witness :
  let s1 := state_of (map_uio_device "/dev/uio0" 0x1000 3 0x7f0000000000
                                     fresh_process) in
  let s2 := state_of (map_uio_device "/dev/uio1" 0x2000 4 0x7f0000100000
                                     s1) in
  let s3 := state_of (unmap_uio s2) in
  In 3 (open_fds s3) /\ In (0x7f0000000000, 0x1000) (mappings s3)
  /\ handle_open s3 = false /\ mapping_live s3 = false
  /\ unmap_uio s3 = (Ok tt, s3).
Proof.
  apply (map_uio_device_twice_leaks fresh_process
           "/dev/uio0" 0x1000 3 0x7f0000000000
           "/dev/uio1" 0x2000 4 0x7f0000100000);
    by_evaluation.
Defined.

(** X15.  A constructor that throws leaves nothing behind: no descriptor
    is open that was not open before, no mapping was added, and the object
    holds neither a live mapping nor an open handle.  (The destructor does
    not run for an object whose constructor threw.) *)
Theorem constructor_failure_leaks_nothing args open_res mmap_res s e :
  let r := uio_htif_t_new args open_res mmap_res s in
  value_of r = Throw e ->
  (forall d, In d (open_fds (state_of r)) -> In d (open_fds s))
  /\ mappings (state_of r) = mappings s
  /\ memory (state_of r) = memory s
  /\ handle_open (state_of r) = false
  /\ mapping_live (state_of r) = false.
Proof.
  cbv zeta. rewrite uio_htif_t_new_run.
  destruct (String.eqb_spec (arg_uio args) "") as [Hdev | Hdev].
  { intros _. unfold state_of. cbn [snd]. repeat split. auto. }
  destruct (map_uio_device_cases (prepared args s) (arg_uio args)
              (chosen_total_size args) open_res mmap_res)
    as [[Ho ->] | [(Ho & Hm & ->) | (Ho & Hm & ->)]];
    unfold value_of, state_of, handle_open, mapping_live;
    cbn [fst snd uio_fd uio_base open_fds mappings memory prepared];
    intros He.
  - repeat split; [auto | now apply Z.leb_gt].
  - repeat split.
    intros d Hd. apply (in_remove Z.eq_dec) in Hd. apply Hd.
  - discriminate He.
Qed.

Lemma constructor_failure_leaks_nothing_witness :
  let r := uio_htif_t_new default_args 3 MAP_FAILED fresh_process in
  (forall d, In d (open_fds (state_of r)) -> In d (open_fds fresh_process))
  /\ mappings (state_of r) = mappings fresh_process
  /\ memory (state_of r) = memory fresh_process
  /\ handle_open (state_of r) = false
  /\ mapping_live (state_of r) = false.
Proof.
  apply (constructor_failure_leaks_nothing default_args 3 MAP_FAILED
           fresh_process (runtime_error "Failed to map UIO device")).
  reflexivity.
Defined.

Lemma filter_unmapped_at base maps :
  unmapped_at base maps ->
  filter (fun m => negb (fst m =? base)) maps = maps.
Proof.
  unfold unmapped_at. induction maps as [| m maps IH]; intros H;
    [reflexivity |].
  cbn [filter].
  rewrite (proj2 (Z.eqb_neq (fst m) base)) by (apply H; left; reflexivity).
  cbn [negb]. f_equal. apply IH. intros m' Hm'. apply H. now right.
Qed.

(** What a constructor that returned has done. *)
Lemma uio_htif_t_new_ok args open_res mmap_res s :
  value_of (uio_htif_t_new args open_res mmap_res s) = Ok tt ->
  (arg_uio args <> ""%string /\ 0 <= open_res /\ mmap_res <> MAP_FAILED)
  /\ state_of (uio_htif_t_new args open_res mmap_res s) =
     mkState mmap_res (chosen_total_size args) open_res
       (chosen_dram_size args)
       (open_res :: open_fds s)
       ((mmap_res, chosen_total_size args) :: mappings s)
       (memory s)
       (trace (state_of (uio_htif_t_new args open_res mmap_res s))).
Proof.
  rewrite uio_htif_t_new_run.
  destruct (String.eqb_spec (arg_uio args) "") as [Hdev | Hdev];
    [discriminate |].
  destruct (map_uio_device_cases (prepared args s) (arg_uio args)
              (chosen_total_size args) open_res mmap_res)
    as [[Ho ->] | [(Ho & Hm & ->) | (Ho & Hm & ->)]];
    unfold value_of, state_of; cbn [fst snd]; try discriminate.
  intros _. split; [auto | reflexivity].
Qed.

(** X17.  Construction followed by destruction gives back what was taken:
    when the constructor returns, for a descriptor and a base address that
    were not in use, the destructor leaves the open descriptors and the
    live mappings as they were before the construction, and the object
    holds nothing. *)
Theorem construct_then_destroy_releases args open_res mmap_res s :
  let r := uio_htif_t_new args open_res mmap_res s in
  let s' := state_of (uio_htif_t_delete (state_of r)) in
  value_of r = Ok tt ->
  mmap_res <> nullptr ->
  ~ In open_res (open_fds s) -> unmapped_at mmap_res (mappings s) ->
  open_fds s' = open_fds s /\ mappings s' = mappings s
  /\ memory s' = memory s
  /\ handle_open s' = false /\ mapping_live s' = false.
Proof.
  cbv zeta. intros Hok Hnull Hfresh Hunmapped.
  destruct (uio_htif_t_new_ok args open_res mmap_res s Hok)
    as ((_ & Hopen & Hmap) & Hstate).
  assert (Hbase : uio_base (state_of (uio_htif_t_new args open_res mmap_res s))
                  = mmap_res) by (rewrite Hstate; reflexivity).
  assert (Hfd : uio_fd (state_of (uio_htif_t_new args open_res mmap_res s))
                = open_res) by (rewrite Hstate; reflexivity).
  assert (Hfds : open_fds (state_of (uio_htif_t_new args open_res mmap_res s))
                 = open_res :: open_fds s) by (rewrite Hstate; reflexivity).
  assert (Hmaps : mappings (state_of (uio_htif_t_new args open_res mmap_res s))
                  = (mmap_res, chosen_total_size args) :: mappings s)
    by (rewrite Hstate; reflexivity).
  assert (Hmem : memory (state_of (uio_htif_t_new args open_res mmap_res s))
                 = memory s) by (rewrite Hstate; reflexivity).
  unfold uio_htif_t_delete.
  destruct (unmap_uio_releases
              (state_of (uio_htif_t_new args open_res mmap_res s)))
    as [Hlive Hhandle].
  split; [| split; [| split; [| split; assumption]]].
  - rewrite unmap_uio_run. unfold state_of at 1. cbn [snd open_fds].
    unfold handle_open. rewrite Hfd, (proj2 (Z.leb_le 0 open_res) Hopen).
    rewrite Hfds, remove_cons. now apply notin_remove.
  - rewrite unmap_uio_run. unfold state_of at 1. cbn [snd mappings].
    unfold mapping_live. rewrite Hbase.
    rewrite (proj2 (Z.eqb_neq _ _) Hnull), (proj2 (Z.eqb_neq _ _) Hmap).
    cbn [negb andb]. rewrite Hmaps. cbn [filter fst].
    rewrite Z.eqb_refl. cbn [negb].
    now apply filter_unmapped_at.
  - rewrite unmap_uio_run. unfold state_of at 1. cbn [snd memory].
    exact Hmem.
Qed.

Lemma construct_then_destroy_releases_witness :
  let r := uio_htif_t_new default_args 3 0x7f0000000000 fresh_process in
  let s' := state_of (uio_htif_t_delete (state_of r)) in
  open_fds s' = open_fds fresh_process
  /\ mappings s' = mappings fresh_process
  /\ memory s' = memory fresh_process
  /\ handle_open s' = false /\ mapping_live s' = false.
Proof.
  apply (construct_then_destroy_releases default_args 3 0x7f0000000000
           fresh_process).
  - reflexivity.
  - discriminate.
  - intros [].
  - intros m [].
Defined.

(** X18.  On every object the constructor built with the default window
    size, [reset] returns and triggers the start, whatever [+dram_size=]
    was: the MSIP word is checked against the window and against the
    interrupt-control block only. *)
Theorem reset_after_default_construction args open_res mmap_res s bo :
  arg_uio_size args = 0 ->
  value_of (uio_htif_t_new args open_res mmap_res s) = Ok tt ->
  reset_triggers_start bo
    (state_of (uio_htif_t_new args open_res mmap_res s)).
Proof.
  intros Hsize Hok.
  destruct (uio_htif_t_new_ok args open_res mmap_res s Hok) as [_ Hstate].
  apply reset_on_large_window. rewrite Hstate. cbn [uio_size].
  unfold chosen_total_size. rewrite Hsize. discriminate.
Qed.

(** Main memory of 16 bytes only, the default window. *)
Lemma reset_after_default_construction_witness :
  reset_triggers_start BigEndian
    (state_of (uio_htif_t_new (mkPlusargs "/dev/uio0" 0 (Some 16)) 3
                              0x7f0000000000 fresh_process)).
Proof.
  apply (reset_after_default_construction
           (mkPlusargs "/dev/uio0" 0 (Some 16)) 3 0x7f0000000000
           fresh_process BigEndian); reflexivity.
Defined.

(** ** The arguments *)

Section ArgvFacts.

Variable strtoull : string -> Z.

Lemma substring_all (d : string) : substring 0 (String.length d) d = d.
Proof.
  induction d as [| c d IH]; [reflexivity |].
  cbn [String.length substring]. now rewrite IH.
Qed.

(** The two marks [main] adds are no arguments of [parse_uio_args]. *)
Lemma scan_arg_permissive acc :
  scan_arg strtoull acc "+permissive" = acc
  /\ scan_arg strtoull acc "+permissive-off" = acc.
Proof. split; reflexivity. Qed.

Lemma fold_scan_permissive args acc :
  fold_left (scan_arg strtoull) (permissive_args args) acc
  = fold_left (scan_arg strtoull) args acc.
Proof.
  revert acc. induction args as [| a args IH]; intros acc; [reflexivity |].
  unfold permissive_args in *. cbn [flat_map].
  rewrite fold_left_app, IH. cbn [fold_left].
  destruct (is_plusarg a); cbn [fold_left]; [| reflexivity].
  destruct (scan_arg_permissive acc) as [-> _].
  destruct (scan_arg_permissive (scan_arg strtoull acc a)) as [_ ->].
  reflexivity.
Qed.

(** X19.  The marks [+permissive] and [+permissive-off] that [main] puts
    around every argument starting with [+] do not change what the
    constructor reads: it reads from the marked list what it would read
    from the original one, except that a program name ([argv[0]]) starting
    with [+] moves to index 1 and is read as an argument too. *)
Theorem scan_of_permissive_args argv :
  scan_argv strtoull (permissive_args argv) =
  fold_left (scan_arg strtoull)
            (if is_plusarg (hd ""%string argv) then argv else tl argv)
            (mkPlusargs "" 0 None).
Proof.
  unfold scan_argv. destruct argv as [| prog rest]; [reflexivity |].
  cbn [hd tl]. unfold permissive_args. cbn [flat_map].
  fold (permissive_args rest).
  destruct (is_plusarg prog); cbn [app tl].
  - cbn [fold_left].
    destruct (scan_arg_permissive
                (scan_arg strtoull (mkPlusargs "" 0 None) prog)) as [_ ->].
    apply fold_scan_permissive.
  - apply fold_scan_permissive.
Qed.

Lemma scan_arg_keeps_device acc arg :
  prefix "+uio=" arg = false ->
  arg_uio (scan_arg strtoull acc arg) = arg_uio acc.
Proof.
  intros H. unfold scan_arg. rewrite H.
  destruct (prefix "+uio_size=" arg); [reflexivity |].
  destruct (prefix "+dram_size=" arg); reflexivity.
Qed.

Lemma fold_scan_keeps_device args acc :
  Forall (fun arg => prefix "+uio=" arg = false) args ->
  arg_uio (fold_left (scan_arg strtoull) args acc) = arg_uio acc.
Proof.
  intros H. revert acc. induction H as [| a args Ha _ IH]; intros acc;
    [reflexivity |].
  cbn [fold_left]. rewrite IH. now apply scan_arg_keeps_device.
Qed.

(** X20.  The last [+uio=] argument names the device: what follows [+uio=]
    in it, whatever arguments precede it, when no later argument starts
    with [+uio=].  [+uio_size=] and [+dram_size=] arguments, and arguments
    the class does not know, do not touch the device name. *)
Theorem last_uio_argument_names_device prog before dev after :
  Forall (fun arg => prefix "+uio=" arg = false) after ->
  arg_uio (scan_argv strtoull
             (prog :: before ++ [("+uio=" ++ dev)%string] ++ after))
  = dev.
Proof.
  intros Hafter. unfold scan_argv. cbn [tl].
  rewrite !fold_left_app. rewrite fold_scan_keeps_device by exact Hafter.
  cbn [fold_left]. unfold scan_arg.
  change (prefix "+uio=" ("+uio=" ++ dev)) with (prefix "" dev).
  assert (Hp : prefix "" dev = true) by (destruct dev; reflexivity).
  rewrite Hp. cbn [arg_uio]. unfold substr_from.
  cbn [String.append String.length Nat.sub substring].
  rewrite Nat.sub_0_r. apply substring_all.
Qed.

End ArgvFacts.

Lemma last_uio_argument_names_device_witness :
  arg_uio (scan_argv (fun _ => 0)
             ("uio_mmio" :: ["+uio=/dev/uio0"; "+uio_size=0x1000"]
                ++ [("+uio=" ++ "/dev/uio1")] ++ ["hello.riscv"])%string)
  = "/dev/uio1"%string.
Proof.
  apply (last_uio_argument_names_device (fun _ => 0)).
  repeat constructor.
Defined.

(** ** The constructor as a whole *)

(** No argument starts with two of the three keys. *)
Lemma uio_size_is_not_uio arg :
  prefix "+uio_size=" arg = true -> prefix "+uio=" arg = false.
Proof.
  destruct arg as [| c1 [| c2 [| c3 [| c4 [| c5 rest]]]]];
    cbn [prefix]; try discriminate;
    repeat match goal with
           | |- context [ascii_dec ?x ?y] => destruct (ascii_dec x y)
           end; try discriminate; try reflexivity.
  subst. discriminate.
Qed.

Lemma dram_size_is_no_other arg :
  prefix "+dram_size=" arg = true ->
  prefix "+uio=" arg = false /\ prefix "+uio_size=" arg = false.
Proof.
  destruct arg as [| c1 [| c2 rest]];
    cbn [prefix]; try discriminate;
    repeat match goal with
           | |- context [ascii_dec ?x ?y] => destruct (ascii_dec x y)
           end; try discriminate; try (split; reflexivity).
  subst. discriminate.
Qed.

Section ConstructorFacts.

Variable strtoull : string -> Z.
Variable htif_t_new : list string -> M unit.

(** What one turn of the loop does to each of the three results. *)
Lemma scan_arg_fields acc arg :
  arg_uio (scan_arg strtoull acc arg)
  = (if prefix "+uio=" arg then substr_from 5 arg else arg_uio acc)
  /\ arg_uio_size (scan_arg strtoull acc arg)
     = (if prefix "+uio_size=" arg then strtoull (substr_from 10 arg)
        else arg_uio_size acc)
  /\ arg_dram_size (scan_arg strtoull acc arg)
     = (if prefix "+dram_size=" arg
        then Some (strtoull (substr_from 11 arg))
        else arg_dram_size acc).
Proof.
  unfold scan_arg.
  destruct (prefix "+dram_size=" arg) eqn:Hd.
  { destruct (dram_size_is_no_other arg Hd) as [-> ->].
    repeat split. }
  destruct (prefix "+uio_size=" arg) eqn:Hs.
  { rewrite (uio_size_is_not_uio arg Hs). repeat split. }
  destruct (prefix "+uio=" arg); repeat split.
Qed.

(** The loop keeps, for each key, the last argument that starts with it. *)
Lemma fold_scan_last args acc :
  arg_uio (fold_left (scan_arg strtoull) args acc)
  = match last_with_prefix "+uio=" args with
    | Some d => d
    | None => arg_uio acc
    end
  /\ arg_uio_size (fold_left (scan_arg strtoull) args acc)
     = match last_with_prefix "+uio_size=" args with
       | Some v => strtoull v
       | None => arg_uio_size acc
       end
  /\ arg_dram_size (fold_left (scan_arg strtoull) args acc)
     = match last_with_prefix "+dram_size=" args with
       | Some v => Some (strtoull v)
       | None => arg_dram_size acc
       end.
Proof.
  revert acc. induction args as [| arg args IH]; intros acc.
  { repeat split. }
  cbn [fold_left last_with_prefix].
  destruct (IH (scan_arg strtoull acc arg)) as (-> & -> & ->).
  destruct (scan_arg_fields acc arg) as (-> & -> & ->).
  change (String.length "+uio=") with 5%nat.
  change (String.length "+uio_size=") with 10%nat.
  change (String.length "+dram_size=") with 11%nat.
  split; [| split].
  - destruct (last_with_prefix "+uio=" args); [reflexivity |].
    destruct (prefix "+uio=" arg); reflexivity.
  - destruct (last_with_prefix "+uio_size=" args); [reflexivity |].
    destruct (prefix "+uio_size=" arg); reflexivity.
  - destruct (last_with_prefix "+dram_size=" args); [reflexivity |].
    destruct (prefix "+dram_size=" arg); reflexivity.
Qed.

Lemma scan_argv_last argv :
  scan_argv strtoull argv =
  mkPlusargs
    (match last_with_prefix "+uio=" (tl argv) with
     | Some d => d
     | None => ""%string
     end)
    (match last_with_prefix "+uio_size=" (tl argv) with
     | Some v => strtoull v
     | None => 0
     end)
    (option_map strtoull (last_with_prefix "+dram_size=" (tl argv))).
Proof.
  unfold scan_argv.
  destruct (fold_scan_last (tl argv) (mkPlusargs "" 0 None))
    as (H1 & H2 & H3).
  destruct (fold_left (scan_arg strtoull) (tl argv) (mkPlusargs "" 0 None))
    as [d u r].
  cbn [arg_uio arg_uio_size arg_dram_size] in *. subst.
  unfold option_map. reflexivity.
Qed.

(** The constructor, base class first, by what the base class did. *)
Lemma uio_htif_t_ctor_run argv open_res mmap_res s :
  uio_htif_t_ctor strtoull htif_t_new argv open_res mmap_res s =
  match htif_t_new argv s with
  | (Ok _, s0) =>
      uio_htif_t_new (scan_argv strtoull argv) open_res mmap_res s0
  | (Throw e, s0) => (Throw e, s0)
  | (Fault, s0) => (Fault, s0)
  end.
Proof.
  unfold uio_htif_t_ctor, uio_htif_t_of_argv, bind.
  destruct (htif_t_new argv s) as [[[] | e |] s0]; reflexivity.
Qed.

(** X14.  The constructor as a whole, run on [argv], returns exactly when
    the constructor of the base class returns, the last [+uio=] argument
    names a device, [open] returns a descriptor and [mmap] does not fail.
    The object then holds that descriptor and mapping, [uio_size] is what
    [strtoull] reads in the last [+uio_size=] argument (1 GiB when there is
    none or it reads 0), and [dram_size] what it reads in the last
    [+dram_size=] argument (0x3fffc000 when there is none or it reads
    0). *)
Theorem constructor_outcome argv open_res mmap_res s :
  let r := uio_htif_t_ctor strtoull htif_t_new argv open_res mmap_res s in
  let s0 := state_of (htif_t_new argv s) in
  let device := match last_with_prefix "+uio=" (tl argv) with
                | Some d => d
                | None => ""%string
                end in
  let total := match last_with_prefix "+uio_size=" (tl argv) with
               | Some v => strtoull v
               | None => 0
               end in
  let dram := match last_with_prefix "+dram_size=" (tl argv) with
              | Some v => strtoull v
              | None => 0
              end in
  (value_of r = Ok tt <->
   value_of (htif_t_new argv s) = Ok tt
   /\ device <> ""%string /\ 0 <= open_res /\ mmap_res <> MAP_FAILED)
  /\ (value_of r = Ok tt ->
      uio_base (state_of r) = mmap_res
      /\ uio_size (state_of r) = (if total =? 0 then 0x40000000 else total)
      /\ uio_fd (state_of r) = open_res
      /\ dram_size (state_of r)
         = (if dram =? 0 then UIO_BOOTROM_OFFSET else dram)
      /\ open_fds (state_of r) = open_res :: open_fds s0
      /\ mappings (state_of r)
         = (mmap_res, if total =? 0 then 0x40000000 else total)
           :: mappings s0
      /\ memory (state_of r) = memory s0).
Proof.
  cbv zeta. rewrite uio_htif_t_ctor_run.
  destruct (htif_t_new argv s) as [[[] | e |] s0];
    unfold value_of, state_of; cbn [fst snd].
  2:{ split; [split; [discriminate | intros [H _]; discriminate H]
             | discriminate]. }
  2:{ split; [split; [discriminate | intros [H _]; discriminate H]
             | discriminate]. }
  assert (Hargs : scan_argv strtoull argv = scan_argv strtoull argv)
    by reflexivity.
  rewrite scan_argv_last in Hargs at 2.
  set (args := scan_argv strtoull argv) in *.
  assert (Hdev : arg_uio args
                 = match last_with_prefix "+uio=" (tl argv) with
                   | Some d => d
                   | None => ""%string
                   end) by (rewrite Hargs; reflexivity).
  assert (Htot : chosen_total_size args
                 = (if match last_with_prefix "+uio_size=" (tl argv) with
                       | Some v => strtoull v
                       | None => 0
                       end =? 0
                    then 0x40000000
                    else match last_with_prefix "+uio_size=" (tl argv) with
                         | Some v => strtoull v
                         | None => 0
                         end)) by (rewrite Hargs; reflexivity).
  assert (Hdram : chosen_dram_size args
                  = (if match last_with_prefix "+dram_size=" (tl argv) with
                        | Some v => strtoull v
                        | None => 0
                        end =? 0
                     then UIO_BOOTROM_OFFSET
                     else match last_with_prefix "+dram_size=" (tl argv) with
                          | Some v => strtoull v
                          | None => 0
                          end)).
  { rewrite Hargs. unfold chosen_dram_size. cbn [arg_dram_size].
    destruct (last_with_prefix "+dram_size=" (tl argv)); reflexivity. }
  rewrite <- Hdev, <- Htot, <- Hdram. clear Hargs Hdev Htot Hdram.
  split.
  - split.
    + intros Hok.
      destruct (uio_htif_t_new_ok args open_res mmap_res s0 Hok)
        as [(Hd & Ho & Hm) _].
      repeat split; assumption.
    + intros (_ & Hd & Ho & Hm).
      rewrite uio_htif_t_new_run.
      rewrite (proj2 (String.eqb_neq _ _) Hd).
      rewrite (map_uio_device_mapped_run _ _ _ _ _ Ho Hm). reflexivity.
  - intros Hok.
    destruct (uio_htif_t_new_ok args open_res mmap_res s0 Hok)
      as [_ Hstate].
    unfold state_of in Hstate. rewrite Hstate. repeat split.
Qed.

(** X16.  Once the constructor of the base class has returned, a
    constructor run on an [argv] without device (no [+uio=] argument, or
    the last one names nothing) throws [invalid_argument] before any system
    call, whatever the other arguments are and whatever [open] and [mmap]
    would answer: after the base class it only prints, and the open
    descriptors and the live mappings are those the base class left. *)
Theorem constructor_requires_device argv open_res mmap_res s s0 :
  htif_t_new argv s = (Ok tt, s0) ->
  last_with_prefix "+uio=" (tl argv) = None
  \/ last_with_prefix "+uio=" (tl argv) = Some ""%string ->
  let r := uio_htif_t_ctor strtoull htif_t_new argv open_res mmap_res s in
  value_of r = Throw (invalid_argument "Must specify +uio=/dev/uioX")
  /\ (exists evs, added_events s0 (state_of r) evs /\ all_stderr evs)
  /\ open_fds (state_of r) = open_fds s0
  /\ mappings (state_of r) = mappings s0
  /\ memory (state_of r) = memory s0.
Proof.
  intros Hbase Hnone. cbv zeta.
  rewrite uio_htif_t_ctor_run, Hbase, uio_htif_t_new_run.
  assert (Hdev : arg_uio (scan_argv strtoull argv) = ""%string).
  { rewrite scan_argv_last. cbn [arg_uio].
    destruct Hnone as [-> | ->]; reflexivity. }
  rewrite Hdev. cbn [String.eqb].
  unfold value_of, state_of. cbn [fst snd].
  split; [reflexivity |].
  split; [| repeat split].
  exists (default_lines (scan_argv strtoull argv)).
  split; [reflexivity |].
  unfold default_lines, all_stderr.
  apply Forall_app. split.
  - destruct (arg_uio_size (scan_argv strtoull argv) =? 0);
      repeat constructor.
    eexists; reflexivity.
  - destruct (match arg_dram_size (scan_argv strtoull argv) with
              | Some d => d =? 0
              | None => true
              end); repeat constructor.
    eexists; reflexivity.
Qed.

End ConstructorFacts.

(** A device, a window of 0x1000 bytes and a main memory of 0x800 bytes;
    an earlier [+uio_size=] that the last one overrides. *)
Lemma constructor_outcome_witness :
  let argv := ["uio_mmio"; "+uio_size=0x800"; "+uio=/dev/uio0";
               "+uio_size=0x1000"; "+dram_size=0x800";
               "hello.riscv"]%string in
  let r := uio_htif_t_ctor read_numeral (fun _ => ret tt) argv
                           3 0x7f0000000000 fresh_process in
  uio_base (state_of r) = 0x7f0000000000
  /\ uio_size (state_of r) = 0x1000
  /\ uio_fd (state_of r) = 3
  /\ dram_size (state_of r) = 0x800
  /\ open_fds (state_of r) = [3]
  /\ mappings (state_of r) = [(0x7f0000000000, 0x1000)]
  /\ memory (state_of r) = memory fresh_process.
Proof.
  cbv zeta.
  destruct (constructor_outcome read_numeral (fun _ => ret tt)
              ["uio_mmio"; "+uio_size=0x800"; "+uio=/dev/uio0";
               "+uio_size=0x1000"; "+dram_size=0x800";
               "hello.riscv"]%string
              3 0x7f0000000000 fresh_process) as [_ Hfields].
  apply Hfields. reflexivity.
Defined.

(** Sizes given, no device. *)
Lemma constructor_requires_device_witness :
  let argv := ["uio_mmio"; "+uio_size=0x1000"; "hello.riscv"]%string in
  let r := uio_htif_t_ctor read_numeral (fun _ => ret tt) argv
                           3 0x7f0000000000 fresh_process in
  value_of r = Throw (invalid_argument "Must specify +uio=/dev/uioX")
  /\ (exists evs, added_events fresh_process (state_of r) evs
                  /\ all_stderr evs)
  /\ open_fds (state_of r) = open_fds fresh_process
  /\ mappings (state_of r) = mappings fresh_process
  /\ memory (state_of r) = memory fresh_process.
Proof.
  apply (constructor_requires_device read_numeral (fun _ => ret tt)
           ["uio_mmio"; "+uio_size=0x1000"; "hello.riscv"]%string
           3 0x7f0000000000 fresh_process fresh_process);
    [reflexivity | left; reflexivity].
Defined.

(** ** [main] *)

Section MainFacts.

Variable strtoull : string -> Z.
Variable htif_t_new : list string -> M unit.
Variable run : M Z.

(** A constructor that lacks the device, the descriptor or the mapping
    throws. *)
Lemma uio_htif_t_new_throws args open_res mmap_res s :
  arg_uio args = ""%string \/ open_res < 0 \/ mmap_res = MAP_FAILED ->
  exists e, value_of (uio_htif_t_new args open_res mmap_res s) = Throw e.
Proof.
  intros Hbad. rewrite uio_htif_t_new_run.
  destruct (String.eqb_spec (arg_uio args) "") as [Hdev | Hdev].
  { eexists. reflexivity. }
  destruct (map_uio_device_cases (prepared args s) (arg_uio args)
              (chosen_total_size args) open_res mmap_res)
    as [[Ho ->] | [(Ho & Hm & ->) | (Ho & Hm & ->)]];
    unfold value_of; cbn [fst]; try (eexists; reflexivity).
  exfalso. destruct Hbad as [H | [H | H]]; [congruence | lia | congruence].
Qed.

(** X21.  When the device cannot be set up, [main] exits with code 1 and
    never calls [run]: with at least one argument and no help flag, if the
    constructor of the base class does not fault and no device is named,
    or [open] fails, or [mmap] fails, then the constructor throws and
    [main] returns 1 with the error printed, in the state the constructor
    left, which is the same whatever [run] is. *)
Theorem main_exits_1_without_device argv open_res mmap_res s :
  (2 <= List.length argv)%nat ->
  existsb is_help_flag (tl argv) = false ->
  value_of (htif_t_new (permissive_args argv) s) <> Fault ->
  arg_uio (scan_argv strtoull (permissive_args argv)) = ""%string
  \/ open_res < 0 \/ mmap_res = MAP_FAILED ->
  let c := uio_htif_t_ctor strtoull htif_t_new (permissive_args argv)
                           open_res mmap_res s in
  exists e,
    value_of c = Throw e
    /\ main strtoull htif_t_new run argv open_res mmap_res s
       = (Some 1, [LogInitializing; LogError (what_of e)], state_of c)
    /\ forall other_run : M Z,
         main strtoull htif_t_new other_run argv open_res mmap_res s
         = main strtoull htif_t_new run argv open_res mmap_res s.
Proof.
  intros Hargc Hhelp Hbase Hbad. cbv zeta.
  assert (Hthrow : exists e,
            value_of (uio_htif_t_ctor strtoull htif_t_new
                        (permissive_args argv) open_res mmap_res s)
            = Throw e).
  { rewrite uio_htif_t_ctor_run.
    destruct (htif_t_new (permissive_args argv) s) as [[[] | e |] s0].
    - now apply uio_htif_t_new_throws.
    - now exists e.
    - exfalso. now apply Hbase. }
  destruct Hthrow as [e He]. exists e. split; [exact He |].
  assert (Hmain : forall any_run : M Z,
            main strtoull htif_t_new any_run argv open_res mmap_res s
            = (Some 1, [LogInitializing; LogError (what_of e)],
               state_of (uio_htif_t_ctor strtoull htif_t_new
                           (permissive_args argv) open_res mmap_res s))).
  { intros any_run. unfold main.
    rewrite (proj2 (Nat.ltb_ge _ _) Hargc), Hhelp.
    unfold value_of, state_of in *.
    destruct (uio_htif_t_ctor strtoull htif_t_new (permissive_args argv)
                open_res mmap_res s) as [[[] | e' |] s1];
      cbn [fst snd] in *; try discriminate.
    congruence. }
  split; [apply Hmain |].
  intros other_run. now rewrite !Hmain.
Qed.

(** X22.  When the device is set up, [main] runs and releases it: the exit
    code is the one [run] returns, or 1 if [run] throws, and in both cases
    the destructor has run on the state [run] left, so that the object
    holds neither a live mapping nor an open handle when [main] returns.
    If [run] faults, [main] does not return and nothing is released. *)
Theorem main_runs_then_releases argv open_res mmap_res s s0 :
  (2 <= List.length argv)%nat ->
  existsb is_help_flag (tl argv) = false ->
  htif_t_new (permissive_args argv) s = (Ok tt, s0) ->
  arg_uio (scan_argv strtoull (permissive_args argv)) <> ""%string ->
  0 <= open_res -> mmap_res <> MAP_FAILED ->
  let s1 := state_of (uio_htif_t_new
                        (scan_argv strtoull (permissive_args argv))
                        open_res mmap_res s0) in
  let result := main strtoull htif_t_new run argv open_res mmap_res s in
  fst (fst result) = match value_of (run s1) with
                     | Ok exit_code => Some exit_code
                     | Throw _ => Some 1
                     | Fault => None
                     end
  /\ (value_of (run s1) <> Fault ->
      snd result = state_of (unmap_uio (state_of (run s1)))
      /\ handle_open (snd result) = false
      /\ mapping_live (snd result) = false)
  /\ (value_of (run s1) = Fault -> snd result = state_of (run s1)).
Proof.
  intros Hargc Hhelp Hbase Hdev Ho Hm. cbv zeta.
  set (s1 := state_of (uio_htif_t_new
                         (scan_argv strtoull (permissive_args argv))
                         open_res mmap_res s0)).
  assert (Hctor : uio_htif_t_ctor strtoull htif_t_new
                    (permissive_args argv) open_res mmap_res s
                  = (Ok tt, s1)).
  { rewrite uio_htif_t_ctor_run, Hbase. subst s1.
    rewrite uio_htif_t_new_run.
    rewrite (proj2 (String.eqb_neq _ _) Hdev).
    rewrite (map_uio_device_mapped_run _ _ _ _ _ Ho Hm). reflexivity. }
  assert (Hmain :
    main strtoull htif_t_new run argv open_res mmap_res s =
    match run s1 with
    | (Ok exit_code, s2) =>
        (Some exit_code,
         [LogInitializing; LogInitialized; LogStarting; LogExited exit_code],
         state_of (unmap_uio s2))
    | (Throw e, s2) =>
        (Some 1,
         [LogInitializing; LogInitialized; LogStarting;
          LogError (what_of e)],
         state_of (unmap_uio s2))
    | (Fault, s2) =>
        (None, [LogInitializing; LogInitialized; LogStarting], s2)
    end).
  { unfold main.
    rewrite (proj2 (Nat.ltb_ge _ _) Hargc), Hhelp, Hctor. reflexivity. }
  rewrite Hmain. clear Hmain. unfold value_of, state_of at 1 2 4.
  destruct (run s1) as [[code | e |] s2]; cbn [fst snd].
  - split; [reflexivity |]. split; [| discriminate].
    intros _. split; [reflexivity |].
    apply and_comm; apply (unmap_uio_releases s2).
  - split; [reflexivity |]. split; [| discriminate].
    intros _. split; [reflexivity |].
    apply and_comm; apply (unmap_uio_releases s2).
  - split; [reflexivity |]. split; [| reflexivity].
    intros H. now contradiction H.
Qed.

End MainFacts.

(** No device named: [+uio_size=] alone. *)
Lemma main_exits_1_without_device_witness :
  let c := uio_htif_t_ctor read_numeral (fun _ => ret tt)
             (permissive_args
                ["uio_mmio"; "+uio_size=0x1000"; "hello.riscv"]%string)
             3 0x7f0000000000 fresh_process in
  exists e,
    value_of c = Throw e
    /\ main read_numeral (fun _ => ret tt) (reset LittleEndian ;; ret 0)
            ["uio_mmio"; "+uio_size=0x1000"; "hello.riscv"]%string
            3 0x7f0000000000 fresh_process
       = (Some 1, [LogInitializing; LogError (what_of e)], state_of c)
    /\ forall other_run : M Z,
         main read_numeral (fun _ => ret tt) other_run
              ["uio_mmio"; "+uio_size=0x1000"; "hello.riscv"]%string
              3 0x7f0000000000 fresh_process
         = main read_numeral (fun _ => ret tt) (reset LittleEndian ;; ret 0)
                ["uio_mmio"; "+uio_size=0x1000"; "hello.riscv"]%string
                3 0x7f0000000000 fresh_process.
Proof.
  apply (main_exits_1_without_device read_numeral (fun _ => ret tt)
           (reset LittleEndian ;; ret 0));
    [repeat constructor | reflexivity | discriminate |].
  left. reflexivity.
Defined.

(** A run that is the reset alone and returns 0. *)
Lemma main_runs_then_releases_witness :
  let argv := ["uio_mmio"; "+uio=/dev/uio0"; "hello.riscv"]%string in
  let run := (reset LittleEndian ;; ret 0) in
  let s1 := state_of (uio_htif_t_new
                        (scan_argv read_numeral (permissive_args argv))
                        3 0x7f0000000000 fresh_process) in
  let result := main read_numeral (fun _ => ret tt) run argv
                     3 0x7f0000000000 fresh_process in
  fst (fst result) = match value_of (run s1) with
                     | Ok exit_code => Some exit_code
                     | Throw _ => Some 1
                     | Fault => None
                     end
  /\ (value_of (run s1) <> Fault ->
      snd result = state_of (unmap_uio (state_of (run s1)))
      /\ handle_open (snd result) = false
      /\ mapping_live (snd result) = false)
  /\ (value_of (run s1) = Fault -> snd result = state_of (run s1)).
Proof.
  apply (main_runs_then_releases read_numeral (fun _ => ret tt)
           (reset LittleEndian ;; ret 0)
           ["uio_mmio"; "+uio=/dev/uio0"; "hello.riscv"]%string
           3 0x7f0000000000 fresh_process fresh_process);
    [repeat constructor | reflexivity | reflexivity | discriminate
    | discriminate | discriminate].
Defined.
